(** * Chrome trace import

    A shallow embedding of
    [static/app/utils/profiling/profile/chromeTraceProfile.tsx]: the format
    detector, the partitioner by process and thread id, the per-bucket
    normalizer, the begin/end merge loop that drives the evented profile, and
    the profile group assembly.

    Conventions.
    - JavaScript numbers that the importer reads ([pid], [tid], [ts], [dur],
      [tdur]) are integers ([Z]); sums and differences are written as the
      code writes them.  [pid] and [tid], which the partitioner only tests
      with [typeof x === 'number'], are [option Z]: [None] stands for a field
      that is absent or not a number.  [dur] and [tdur] are [option Z] as the
      event type declares them ([dur?: number]): a number, or [None] for a
      field that is absent ([undefined] or [null]), so that
      [typeof dur === 'number'] is [is_Some (dur e)] and
      [dur ?? tdur ?? 0] takes the first of [dur], [tdur] that is there.  An
      event whose [dur] or [tdur] is present and not a number is outside this
      event type, and nothing here speaks of it.  [ts] is a number, as the
      event type requires; the guard [typeof firstTimestamp !== 'number'] of
      [buildProfile] and its error "First begin event contains no timestamp"
      need a begin entry whose [ts] is not a number and have no counterpart
      here.
    - [String(n)] is the decimal notation of the integer [n] (as JavaScript
      prints integers below 10^21), and [trim] strips the ASCII white space;
      both reach the names of frames and profiles only.
    - [args] is observed by the importer through [JSON.stringify(args)] and
      through [args.name] only; an [Args] value records these two
      observations.
    - The evented profile and the frames' weights are maintained outside this
      file.  The profile under construction is the sequence of
      [enterFrame]/[leaveFrame] calls issued so far, and [frame.totalWeight],
      a field only the profile writes, is a function [totalWeight] of that
      sequence and the frame.  Both calls are taken to return normally.
    - A thrown exception is an [Error]; a function that may throw returns a
      [Result]. *)

From stdpp Require Import base strings list gmap sorting pretty.
From Stdlib Require Import ZArith Lia.

Local Open Scope Z_scope.

(** ** Exceptions *)

Inductive Error :=
| ObjectFormatNotSupported
| FailedToParse
| NoEvents
| NoFrameEvents
| NothingToTake
| NeverEntered (key : string)
| TypeError
| LoopBudgetExhausted.

(** The text of each [new Error(...)] of the source.  [TypeError] is raised
    by the runtime (a property read on [undefined], [in] applied to [null]);
    [LoopBudgetExhausted] belongs to the model of the [while] loop only and
    is shown unreachable below. *)
Definition message (e : Error) : string :=
  match e with
  | ObjectFormatNotSupported => "Chrometrace object format is not yet supported"
  | FailedToParse => "Failed to parse trace input format"
  | NoEvents => "Profile contains no events"
  | NoFrameEvents => "Profile does not contain any frame events"
  | NothingToTake => "Nothing to take from begin queue"
  | NeverEntered key => "Cannot leave frame that was never entered, leaving " +:+ key
  | TypeError => "TypeError"
  | LoopBudgetExhausted => "loop budget exhausted"
  end.

Inductive Result (A : Type) :=
| Ok (a : A)
| Throw (e : Error).
Arguments Ok {A} a.
Arguments Throw {A} e.

Definition bind {A R : Type} (m : Result A) (k : A -> Result R) : Result R :=
  match m with
  | Ok a => k a
  | Throw e => Throw e
  end.

Notation "'let?' x := m 'in' k" := (bind m (fun x => k))
  (at level 10, x name, m at level 200, k at level 200).

(** ** Events *)

Inductive Phase := B | E | X | M | Other.

Global Instance Phase_eq_dec : EqDecision Phase.
Proof. solve_decision. Defined.

Record Args := {
  stringified : string;        (* JSON.stringify(args) *)
  arg_name : option string     (* args.name when typeof args.name === 'string' *)
}.

Record Event := {
  pid : option Z;
  tid : option Z;
  ts : Z;
  ph : Phase;
  name : option string;
  args : Args;
  dur : option Z;              (* dur?: number *)
  tdur : option Z              (* tdur?: number *)
}.

(** [{...event, ph: p}] and [{...event, ph: p, ts: t}]. *)
Definition with_ph (event : Event) (p : Phase) : Event :=
  {| pid := pid event; tid := tid event; ts := ts event; ph := p;
     name := name event; args := args event; dur := dur event; tdur := tdur event |}.

Definition with_ph_ts (event : Event) (p : Phase) (t : Z) : Event :=
  {| pid := pid event; tid := tid event; ts := t; ph := p;
     name := name event; args := args event; dur := dur event; tdur := tdur event |}.

(** ** Pieces of the JavaScript runtime *)

Module Js.

(** An input value as [importChromeTrace] sees it: its [typeof], whether it
    is an array, and for an object the property names [in] answers to.  An
    array holds the events of the array format. *)
Inductive Value :=
| Undefined
| Null
| Boolean (b : bool)
| Number (n : Z)
| String (s : string)
| Array (events : list Event)
| Object (properties : list string).

Inductive Typeof := TUndefined | TObject | TBoolean | TNumber | TString.

Definition typeof (v : Value) : Typeof :=
  match v with
  | Undefined => TUndefined
  | Null => TObject
  | Boolean _ => TBoolean
  | Number _ => TNumber
  | String _ => TString
  | Array _ => TObject
  | Object _ => TObject
  end.

Definition isArray (v : Value) : bool :=
  match v with
  | Array _ => true
  | _ => false
  end.

(** [p in v]: a TypeError unless [v] is an object; an array of events has
    index properties and [length] only. *)
Definition has_property (p : string) (v : Value) : Result bool :=
  match v with
  | Object properties => Ok (bool_decide (p ∈ properties))
  | Array _ => Ok false
  | _ => Throw TypeError
  end.

(** [String.prototype.trim], on the ASCII white space characters. *)
Definition isWhiteSpace (c : Ascii.ascii) : bool :=
  let n := Ascii.nat_of_ascii c in
  bool_decide (n = 32 \/ 9 <= n <= 13)%nat.

Fixpoint trimStart (s : string) : string :=
  match s with
  | EmptyString => EmptyString
  | String.String c s' => if isWhiteSpace c then trimStart s' else s
  end.

Definition trim (s : string) : string :=
  String.rev (trimStart (String.rev (trimStart s))).

(** [Array.prototype.sort(compare)]: a stable sort; [compare a b > 0] puts
    [a] after [b]. *)
Fixpoint insert_sorted {A : Type} (compare : A -> A -> Z) (a : A) (l : list A) : list A :=
  match l with
  | [] => [a]
  | b :: l' => if 0 <? compare a b then b :: insert_sorted compare a l' else a :: l
  end.

Definition sort {A : Type} (compare : A -> A -> Z) (l : list A) : list A :=
  foldr (insert_sorted compare) [] l.

(** An object used as a record keyed by numbers: its own properties in
    creation order.  [for (k in o)] visits the keys that are array indices
    (integers from 0 to 2^32 - 2) in ascending order first, then the other
    keys in creation order. *)
Definition Record_ (V : Type) := list (Z * V).

Fixpoint get {V : Type} (k : Z) (o : Record_ V) : option V :=
  match o with
  | [] => None
  | (k', v) :: o' => if k =? k' then Some v else get k o'
  end.

Fixpoint set {V : Type} (k : Z) (v : V) (o : Record_ V) : Record_ V :=
  match o with
  | [] => [(k, v)]
  | (k', v') :: o' => if k =? k' then (k, v) :: o' else (k', v') :: set k v o'
  end.

Definition isArrayIndex (k : Z) : bool := (0 <=? k) && (k <? 2 ^ 32 - 1).

Definition own_keys {V : Type} (o : Record_ V) : list Z := map fst o.

Definition for_in {V : Type} (o : Record_ V) : list Z :=
  merge_sort Z.le (filter (fun k => Is_true (isArrayIndex k)) (own_keys o))
  ++ filter (fun k => ~ Is_true (isArrayIndex k)) (own_keys o).

(** [String(n)] for an integer [n]. *)
Definition to_string (n : Z) : string := pretty n.

End Js.


(** ** Frames, the evented profile and the profile group *)

Module FrameInfo.
Record t := { key : string; name : string }.
End FrameInfo.

Module Frame.
Record t := { key : string; name : string }.

(** [new Frame(frameInfo)] *)
Definition new (frameInfo : FrameInfo.t) : t :=
  {| key := FrameInfo.key frameInfo; name := FrameInfo.name frameInfo |}.
End Frame.

(** A call received by the evented profile. *)
Inductive Call :=
| enterFrame (frame : Frame.t) (time : Z)
| leaveFrame (frame : Frame.t) (time : Z).

Definition is_enter (c : Call) : bool :=
  match c with
  | enterFrame _ _ => true
  | leaveFrame _ _ => false
  end.

Definition is_leave (c : Call) : bool :=
  match c with
  | enterFrame _ _ => false
  | leaveFrame _ _ => true
  end.

Module EventedProfile.
(** What [profile.build()] returns: the profile's name and the calls it
    has received, oldest first. *)
Record t := { name : string; calls : list Call }.
End EventedProfile.

Module ProfileGroup.
Record t := {
  name : string;
  traceID : string;
  activeProfileIndex : Z;
  profiles : list EventedProfile.t
}.
End ProfileGroup.

(** ** The partitioner *)

Definition Collections := Js.Record_ (Js.Record_ (list Event)).

(** The body of the partitioner's loop. *)
Definition split_event (collections : Collections) (event : Event) : Collections :=
  match pid event with
  | None => collections
  | Some p =>
    match tid event with
    | None => collections
    | Some t =>
      let collections1 :=
        match Js.get p collections with
        | None => Js.set p [] collections
        | Some _ => collections
        end in
      let threads := default [] (Js.get p collections1) in
      let threads1 :=
        match Js.get t threads with
        | None => Js.set t [] threads
        | Some _ => threads
        end in
      let events := default [] (Js.get t threads1) in
      Js.set p (Js.set t (events ++ [event]) threads1) collections1
    end
  end.

Definition splitEventsByProcessAndTraceId (trace : list Event) : Collections :=
  fold_left split_event trace [].

(** ** Queue order and queue selection *)

Definition chronologicalSort (a b : Event) : Z :=
  if ts a <? ts b then -1
  else if ts a >? ts b then 1
  else 0.

(** The value of [getNextQueue]: ['B'] or ['E']. *)
Inductive Queue := QB | QE.

Definition getNextQueue (beginQueue endQueue : list Event) : Result Queue :=
  if bool_decide (beginQueue = []) && bool_decide (endQueue = [])
  then Throw NoEvents
  else
    match head endQueue with
    | None => Ok QB
    | Some nextEnd =>
      match head beginQueue with
      | None => Ok QE
      | Some nextBegin =>
        if ts nextBegin <? ts nextEnd then Ok QB
        else if ts nextEnd <? ts nextBegin then Ok QE
        else Ok QB
      end
    end.

Definition createFrameInfoFromEvent (event : Event) : FrameInfo.t :=
  let key := stringified (args event) in
  let shown :=
    match name event with
    | Some n => if String.eqb n EmptyString then "Unknown" else n
    | None => "Unknown"
    end in
  {| FrameInfo.key := key; FrameInfo.name := Js.trim (shown +:+ " " +:+ key) |}.

(** ** The local variables of [buildProfile] *)

Record Locals := {
  processName : string;
  threadName : string;
  beginQueue : list Event;
  endQueue : list Event;
  stack : list Event;                 (* the top of the stack first *)
  frameCache : gmap string Frame.t;
  calls : list Call                   (* what [profile] has received, oldest first *)
}.

Definition set_processName (v : string) (st : Locals) : Locals :=
  {| processName := v; threadName := threadName st; beginQueue := beginQueue st;
     endQueue := endQueue st; stack := stack st; frameCache := frameCache st;
     calls := calls st |}.

Definition set_threadName (v : string) (st : Locals) : Locals :=
  {| processName := processName st; threadName := v; beginQueue := beginQueue st;
     endQueue := endQueue st; stack := stack st; frameCache := frameCache st;
     calls := calls st |}.

Definition set_beginQueue (v : list Event) (st : Locals) : Locals :=
  {| processName := processName st; threadName := threadName st; beginQueue := v;
     endQueue := endQueue st; stack := stack st; frameCache := frameCache st;
     calls := calls st |}.

Definition set_endQueue (v : list Event) (st : Locals) : Locals :=
  {| processName := processName st; threadName := threadName st;
     beginQueue := beginQueue st; endQueue := v; stack := stack st;
     frameCache := frameCache st; calls := calls st |}.

Definition set_stack (v : list Event) (st : Locals) : Locals :=
  {| processName := processName st; threadName := threadName st;
     beginQueue := beginQueue st; endQueue := endQueue st; stack := v;
     frameCache := frameCache st; calls := calls st |}.

Definition set_frameCache (v : gmap string Frame.t) (st : Locals) : Locals :=
  {| processName := processName st; threadName := threadName st;
     beginQueue := beginQueue st; endQueue := endQueue st; stack := stack st;
     frameCache := v; calls := calls st |}.

(** [profile.enterFrame(...)] or [profile.leaveFrame(...)]. *)
Definition call (c : Call) (st : Locals) : Locals :=
  {| processName := processName st; threadName := threadName st;
     beginQueue := beginQueue st; endQueue := endQueue st; stack := stack st;
     frameCache := frameCache st; calls := calls st ++ [c] |}.

(** ** The normalizer: the first loop of [buildProfile] *)

Definition isTimelineEvent (e : Event) : bool :=
  bool_decide (ph e = B) || bool_decide (ph e = E) ||
  bool_decide (ph e = X) || bool_decide (ph e = M).

Definition named (event : Event) (n : string) : bool :=
  match name event with
  | Some n' => String.eqb n' n
  | None => false
  end.

(** B, E and X events: the part of the loop body after the metadata test.
    With [dur] and [tdur] numbers or absent, [event.dur ?? event.tdur ?? 0]
    is [dur] when it is there and otherwise [tdur]; the sum with [ts] is the
    code's [event.ts + ...]. *)
Definition push_event (st : Locals) (event : Event) : Locals :=
  match ph event with
  | B => set_beginQueue (beginQueue st ++ [event]) st
  | E => set_endQueue (endQueue st ++ [event]) st
  | X =>
    if bool_decide (is_Some (dur event)) || bool_decide (is_Some (tdur event))
    then
      let duration :=
        match dur event with
        | Some d => d
        | None => match tdur event with Some d => d | None => 0 end
        end in
      set_endQueue (endQueue st ++ [with_ph_ts event E (ts event + duration)])
        (set_beginQueue (beginQueue st ++ [with_ph event B]) st)
    else st
  | _ => st
  end.

Definition collect_event (processId threadId : string) (st : Locals) (event : Event) : Locals :=
  match ph event, arg_name (args event) with
  | M, Some n =>
    if named event "thread_name"
    then set_threadName (n +:+ " (" +:+ threadId +:+ ")") st
    else if named event "process_name"
    then set_processName (n +:+ " (" +:+ processId +:+ ")") st
    else push_event st event
  | _, _ => push_event st event
  end.

Definition initial (processId threadId : string) : Locals :=
  {| processName := "pid (" +:+ processId +:+ ")";
     threadName := "tid (" +:+ threadId +:+ ")";
     beginQueue := []; endQueue := []; stack := []; frameCache := ∅; calls := [] |}.

(** The queues and names after the first loop, before the queues are sorted. *)
Definition collect (processId threadId : string) (events : list Event) : Locals :=
  let timelineEvents := List.filter isTimelineEvent events in
  fold_left (collect_event processId threadId) timelineEvents (initial processId threadId).

(** The queues as the merge loop receives them. *)
Definition normalize (processId threadId : string) (events : list Event) : Locals :=
  let st := collect processId threadId events in
  set_endQueue (Js.sort chronologicalSort (endQueue st))
    (set_beginQueue (Js.sort chronologicalSort (beginQueue st)) st).

(** ** The merge loop *)

(** The [for] loop of the End branch, from index [i] on the entries [rest]
    of the end queue: the index and the entry of the first one whose key is
    that of the top of the stack, unless an entry later than [endQueue[0]]
    comes first. *)
Fixpoint find_sibling (topKey : string) (ts0 : Z) (rest : list Event) (i : nat)
  : option (nat * Event) :=
  match rest with
  | [] => None
  | e :: rest' =>
    if ts e >? ts0 then None
    else if String.eqb topKey (FrameInfo.key (createFrameInfoFromEvent e)) then Some (i, e)
    else find_sibling topKey ts0 rest' (S i)
  end.

(** The Begin branch.  The second lookup is [frameCache.get(frameInfo.key)!]:
    the key has just been set, so its [None] case is never taken. *)
Definition begin_step (firstTimestamp : Z) (st : Locals) : Result Locals :=
  match beginQueue st with
  | [] => Throw NothingToTake
  | item :: beginQueue' =>
    let st := set_beginQueue beginQueue' st in
    let frameInfo := createFrameInfoFromEvent item in
    let st :=
      match frameCache st !! FrameInfo.key frameInfo with
      | None => set_frameCache (<[FrameInfo.key frameInfo := Frame.new frameInfo]> (frameCache st)) st
      | Some _ => st
      end in
    match frameCache st !! FrameInfo.key frameInfo with
    | None => Throw TypeError
    | Some frame =>
      Ok (set_stack (item :: stack st) (call (enterFrame frame (ts item - firstTimestamp)) st))
    end
  end.

(** The End branch.  [endQueue.shift()] comes first, so the scan and the
    swap work on the queue without [item]; [createFrameInfoFromEvent] reads
    [args] of its argument and throws on [undefined], for the shifted item of
    an empty queue as for the top of an empty stack. *)
Definition end_step (firstTimestamp : Z) (st : Locals) : Result Locals :=
  match endQueue st with
  | [] => Throw TypeError
  | item :: endQueue' =>
    let st := set_endQueue endQueue' st in
    let frameInfo := createFrameInfoFromEvent item in
    match stack st with
    | [] => Throw TypeError
    | top :: _ =>
      let topFrameInfro := createFrameInfoFromEvent top in
      let found :=
        match endQueue st with
        | [] => None
        | head :: rest => find_sibling (FrameInfo.key topFrameInfro) (ts head) rest 1
        end in
      let '(st, frameInfo) :=
        match found, head (endQueue st) with
        | Some (i, nextEnd), Some tmp =>
          (set_endQueue (<[i := tmp]> (<[0%nat := nextEnd]> (endQueue st))) st,
           createFrameInfoFromEvent nextEnd)
        | _, _ => (st, frameInfo)
        end in
      match frameCache st !! FrameInfo.key frameInfo with
      | None => Throw (NeverEntered (FrameInfo.key frameInfo))
      | Some frame =>
        Ok (set_stack (tail (stack st)) (call (leaveFrame frame (ts item - firstTimestamp)) st))
      end
    end
  end.

(** One iteration of [while (beginQueue.length > 0 || endQueue.length > 0)]. *)
Definition step (firstTimestamp : Z) (st : Locals) : Result Locals :=
  let? next := getNextQueue (beginQueue st) (endQueue st) in
  match next with
  | QB => begin_step firstTimestamp st
  | QE => end_step firstTimestamp st
  end.

Definition drained (st : Locals) : bool :=
  bool_decide (beginQueue st = []) && bool_decide (endQueue st = []).

Fixpoint merge_loop (firstTimestamp : Z) (budget : nat) (st : Locals) : Result Locals :=
  if drained st then Ok st
  else
    match budget with
    | O => Throw LoopBudgetExhausted
    | S budget' =>
      let? st' := step firstTimestamp st in
      merge_loop firstTimestamp budget' st'
    end.

Section Importer.

(** [frame.totalWeight] after the profile has received the given calls. *)
Variable totalWeight : list Call -> Frame.t -> Z.

(** [while (stack.length) { ... }], on the stack [pending]. *)
Fixpoint close_leftover (pending : list Event) (st : Locals) : Result Locals :=
  match pending with
  | [] => Ok st
  | item :: pending' =>
    let st := set_stack pending' st in
    let frameInfo := createFrameInfoFromEvent item in
    match frameCache st !! FrameInfo.key frameInfo with
    | None => Throw (NeverEntered (FrameInfo.key frameInfo))
    | Some frame =>
      close_leftover pending' (call (leaveFrame frame (totalWeight (calls st) frame)) st)
    end
  end.

(** The merge loop and the forced closes, from the normalized queues.  The
    guard on [typeof firstTimestamp] between the test of the begin queue and
    the loop never fires for a [ts] that is a number and is left out. *)
Definition run_timeline (st : Locals) : Result Locals :=
  match beginQueue st with
  | [] => Throw NoFrameEvents
  | first :: _ =>
    let firstTimestamp := ts first in
    let? st := merge_loop firstTimestamp (length (beginQueue st) + length (endQueue st)) st in
    close_leftover (stack st) st
  end.

(** [profile.build()] *)
Definition build (st : Locals) : EventedProfile.t :=
  {| EventedProfile.name := processName st +:+ ": " +:+ threadName st;
     EventedProfile.calls := calls st |}.

Definition buildProfile (processId threadId : string) (events : list Event)
  : Result EventedProfile.t :=
  let? st := run_timeline (normalize processId threadId events) in
  Ok (build st).

(** ** The profile group *)

(** The buckets in the order of the two nested [for ... in] loops. *)
Definition buckets (collections : Collections) : list (Z * Z * list Event) :=
  flat_map
    (fun processId =>
       let threads := default [] (Js.get processId collections) in
       map (fun threadId => (processId, threadId, default [] (Js.get threadId threads)))
         (Js.for_in threads))
    (Js.for_in collections).

Fixpoint build_all (bs : list (Z * Z * list Event)) : Result (list EventedProfile.t) :=
  match bs with
  | [] => Ok []
  | (processId, threadId, events) :: bs' =>
    let? profile := buildProfile (Js.to_string processId) (Js.to_string threadId) events in
    let? profiles := build_all bs' in
    Ok (profile :: profiles)
  end.

Definition parseChromeTraceArrayFormat (input : list Event) : Result ProfileGroup.t :=
  let eventsByProcessAndThreadID := splitEventsByProcessAndTraceId input in
  let? profiles := build_all (buckets eventsByProcessAndThreadID) in
  Ok {| ProfileGroup.name := "chrometrace";
        ProfileGroup.traceID := EmptyString;
        ProfileGroup.activeProfileIndex := 0;
        ProfileGroup.profiles := profiles |}.

(** ** The format detector *)

Definition isChromeTraceObjectFormat (input : Js.Value) : Result bool :=
  match Js.typeof input with
  | Js.TObject => Js.has_property "traceEvents" input
  | _ => Ok false
  end.

Definition isChromeTraceArrayFormat (input : Js.Value) : bool := Js.isArray input.

Definition isChromeTraceFormat (input : Js.Value) : Result bool :=
  if isChromeTraceArrayFormat input then Ok true
  else isChromeTraceObjectFormat input.

Definition importChromeTrace (input : Js.Value) : Result ProfileGroup.t :=
  let? object := isChromeTraceObjectFormat input in
  if object then Throw ObjectFormatNotSupported
  else
    match input with
    | Js.Array events => parseChromeTraceArrayFormat events
    | _ => Throw FailedToParse
    end.

End Importer.

(** ** Sample events *)

Definition frame_args (key : string) : Args :=
  {| stringified := key; arg_name := None |}.

Definition sample (p t : option Z) (time : Z) (phase : Phase) (n key : string) : Event :=
  {| pid := p; tid := t; ts := time; ph := phase; name := Some n;
     args := frame_args key; dur := None; tdur := None |}.

Definition sample_complete (time : Z) (n key : string) (d td : option Z) : Event :=
  {| pid := Some 1; tid := Some 1; ts := time; ph := X; name := Some n;
     args := frame_args key; dur := d; tdur := td |}.

(** A profile whose frames weigh as many units as it has received calls. *)
Definition call_count_weight : list Call -> Frame.t -> Z :=
  fun received _ => Z.of_nat (length received).

(** ** Invariants of the merge loop *)

Definition event_key (e : Event) : string := FrameInfo.key (createFrameInfoFromEvent e).

(** Every event on the stack has its frame in the cache. *)
Definition stack_cached (st : Locals) : Prop :=
  Forall (fun e => is_Some (frameCache st !! event_key e)) (stack st).

(** The frames entered and not yet left are as many as the stack is deep. *)
Definition balanced (st : Locals) : Prop :=
  length (List.filter is_enter (calls st)) =
  (length (List.filter is_leave (calls st)) + length (stack st))%nat.

(** ** Buckets *)

Definition lookup2 (p t : Z) (collections : Collections) : option (list Event) :=
  match Js.get p collections with
  | Some threads => Js.get t threads
  | None => None
  end.

Definition routed (p t : Z) (e : Event) : bool :=
  bool_decide (pid e = Some p /\ tid e = Some t).

(** Every record of threads holds a bucket and has distinct keys. *)
Definition well_formed (collections : Collections) : Prop :=
  NoDup (Js.own_keys collections)
  /\ forall p threads,
       Js.get p collections = Some threads ->
       NoDup (Js.own_keys threads) /\ exists t, is_Some (Js.get t threads).

(** The buckets in the order the partitioner created them. *)
Definition discovery_order (collections : Collections) : list (Z * Z) :=
  flat_map (fun entry => map (pair (fst entry)) (Js.own_keys (snd entry))) collections.

Definition lex_lt (a b : Z * Z) : Prop :=
  fst a < fst b \/ (fst a = fst b /\ snd a < snd b).

(** ** Observations on calls and events *)

Definition call_frame (c : Call) : Frame.t :=
  match c with
  | enterFrame frame _ => frame
  | leaveFrame frame _ => frame
  end.

Definition call_time (c : Call) : Z :=
  match c with
  | enterFrame _ time => time
  | leaveFrame _ time => time
  end.

(** The events that put an entry on the begin queue: B events, and X events
    with a numeric [dur] or [tdur]. *)
Definition opens_frame (e : Event) : bool :=
  match ph e with
  | B => true
  | X => bool_decide (is_Some (dur e)) || bool_decide (is_Some (tdur e))
  | _ => false
  end.

(** The metadata events that set the thread label. *)
Definition names_thread (e : Event) : bool :=
  bool_decide (ph e = M) && named e "thread_name" && bool_decide (is_Some (arg_name (args e))).

(** A queue in ascending order of timestamp. *)
Definition chronological (queue : list Event) : Prop :=
  StronglySorted Z.le (ts <$> queue).

(** The entries an event puts on the queues. *)
Definition duration (e : Event) : Z :=
  match dur e with
  | Some d => d
  | None => match tdur e with Some d => d | None => 0 end
  end.

Definition begin_entry (e : Event) : Event :=
  {| pid := pid e; tid := tid e; ts := ts e; ph := B;
     name := name e; args := args e; dur := dur e; tdur := tdur e |}.

Definition closes_frame (e : Event) : bool :=
  match ph e with
  | E => true
  | X => bool_decide (is_Some (dur e)) || bool_decide (is_Some (tdur e))
  | _ => false
  end.

Definition end_time (e : Event) : Z :=
  match ph e with
  | E => ts e
  | _ => ts e + duration e
  end.

Definition end_entry (e : Event) : Event :=
  {| pid := pid e; tid := tid e; ts := end_time e; ph := E;
     name := name e; args := args e; dur := dur e; tdur := tdur e |}.

(** The calls that enter, and that leave, the frame of a key. *)
Definition enters_of (key : string) (received : list Call) : nat :=
  length (List.filter (fun c => is_enter c && String.eqb (Frame.key (call_frame c)) key)
            received).

Definition leaves_of (key : string) (received : list Call) : nat :=
  length (List.filter (fun c => is_leave c && String.eqb (Frame.key (call_frame c)) key)
            received).

(** The cache holds each frame under the frame's own key, every cached frame
    has been entered, and the frame of every call is the cached one. *)
Definition frames_cached (st : Locals) : Prop :=
  (forall k f, frameCache st !! k = Some f ->
               Frame.key f = k /\ exists j t, calls st !! j = Some (enterFrame f t))
  /\ (forall c, c ∈ calls st -> frameCache st !! Frame.key (call_frame c) = Some (call_frame c)).

(** Every [leaveFrame] call comes after an [enterFrame] call for its frame. *)
Definition entered_before_left (received : list Call) : Prop :=
  forall i f t, received !! i = Some (leaveFrame f t) ->
                exists j t', (j < i)%nat /\ received !! j = Some (enterFrame f t').

(** The calls so far are in ascending order of time, none before time 0 and
    none after an entry still on the queues; the queues are in ascending
    order and no begin entry is earlier than the first timestamp. *)
Definition timed (firstTimestamp : Z) (st : Locals) : Prop :=
  chronological (beginQueue st)
  /\ chronological (endQueue st)
  /\ StronglySorted Z.le (call_time <$> calls st)
  /\ Forall (fun c => 0 <= call_time c) (calls st)
  /\ (forall c e, c ∈ calls st -> e ∈ beginQueue st ++ endQueue st ->
                  call_time c <= ts e - firstTimestamp)
  /\ (forall e, e ∈ beginQueue st -> firstTimestamp <= ts e).

(** Reads of the local variables after assignments. *)
Ltac locals :=
  unfold set_processName, set_threadName, set_beginQueue, set_endQueue, set_stack,
    set_frameCache, call in *;
  cbn [processName threadName beginQueue endQueue stack frameCache calls bind] in *.

(** * Properties *)

Example trim_frame_name : Js.trim " f {}  " = "f {}".
Proof. reflexivity. Qed.

Example for_in_order :
  Js.for_in [(7, tt); (-1, tt); (2, tt); (4294967295, tt); (0, tt)] = [0; 2; 7; -1; 4294967295].
Proof. vm_compute. reflexivity. Qed.

(** ** The sort of the queues *)

Lemma insert_sorted_Permutation {A : Type} (compare : A -> A -> Z) (a : A) (l : list A) :
  Js.insert_sorted compare a l ≡ₚ a :: l.
Proof.
  induction l as [|b l IH]; cbn [Js.insert_sorted]; [done|].
  destruct (0 <? compare a b); [|done].
  rewrite IH. apply Permutation_swap.
Qed.

Lemma sort_Permutation {A : Type} (compare : A -> A -> Z) (l : list A) :
  Js.sort compare l ≡ₚ l.
Proof.
  induction l as [|a l IH]; [done|].
  unfold Js.sort in *. cbn [foldr]. rewrite insert_sorted_Permutation. by rewrite IH.
Qed.

Lemma chronologicalSort_positive (a b : Event) :
  (0 <? chronologicalSort a b) = true <-> ts b < ts a.
Proof.
  unfold chronologicalSort.
  destruct (Z.ltb_spec (ts a) (ts b)); [cbn; split; [done|lia]|].
  destruct (Z.gtb_spec (ts a) (ts b)); cbn; split; (done || lia).
Qed.

(** Both queues reach the merge loop in ascending order of timestamp. *)
Lemma sort_chronological (l : list Event) :
  StronglySorted (fun a b => ts a <= ts b) (Js.sort chronologicalSort l).
Proof.
  induction l as [|a l IH]; [constructor|].
  unfold Js.sort in *. cbn [foldr].
  induction IH as [|b l' Hs IH' Hall]; cbn [Js.insert_sorted]; [repeat constructor|].
  destruct (0 <? chronologicalSort a b) eqn:Hc.
  - apply chronologicalSort_positive in Hc. constructor; [exact IH'|].
    rewrite (insert_sorted_Permutation chronologicalSort a l').
    constructor; [lia|exact Hall].
  - assert (Hab : ts a <= ts b).
    { destruct (Z.le_gt_cases (ts a) (ts b)) as [|Hgt]; [done|].
      apply chronologicalSort_positive in Hgt. congruence. }
    constructor; [by constructor|]. constructor; [exact Hab|].
    eapply Forall_impl; [exact Hall|]. cbn. intros c Hc'. lia.
Qed.

(** Entries with the same timestamp keep their order. *)
Example sort_is_stable :
  map name (Js.sort chronologicalSort
              [sample None None 5 E "a" "{}"; sample None None 2 E "b" "{}";
               sample None None 5 E "c" "{}"; sample None None 2 E "d" "{}"])
  = [Some "b"; Some "d"; Some "a"; Some "c"].
Proof. reflexivity. Qed.

(** ** The steps of the merge loop *)

Lemma begin_step_spec (firstTimestamp : Z) (st : Locals) (item : Event) (q : list Event) :
  beginQueue st = item :: q ->
  exists frame cache,
    begin_step firstTimestamp st =
      Ok {| processName := processName st; threadName := threadName st;
            beginQueue := q; endQueue := endQueue st; stack := item :: stack st;
            frameCache := cache;
            calls := calls st ++ [enterFrame frame (ts item - firstTimestamp)] |}
    /\ cache !! event_key item = Some frame
    /\ (forall k, is_Some (frameCache st !! k) -> is_Some (cache !! k)).
Proof.
  intros Hq. unfold begin_step. rewrite Hq. locals.
  fold (event_key item).
  destruct (frameCache st !! event_key item) as [frame|] eqn:Hc.
  - exists frame, (frameCache st). locals. rewrite Hc. auto.
  - exists (Frame.new (createFrameInfoFromEvent item)),
      (<[event_key item := Frame.new (createFrameInfoFromEvent item)]> (frameCache st)).
    locals. rewrite lookup_insert_eq. split; [reflexivity|].
    split; [reflexivity|].
    intros k Hk. destruct (decide (event_key item = k)) as [->|Hne].
    + rewrite lookup_insert_eq. eauto.
    + rewrite lookup_insert_ne by done. done.
Qed.

Lemma getNextQueue_cons (nextBegin nextEnd : Event) (bq eq : list Event) :
  getNextQueue (nextBegin :: bq) (nextEnd :: eq) =
    if ts nextBegin <? ts nextEnd then Ok QB
    else if ts nextEnd <? ts nextBegin then Ok QE
    else Ok QB.
Proof. reflexivity. Qed.

(** C2: with both queues non-empty, [getNextQueue] selects the queue whose
    head is strictly earlier and the begin queue when the two heads have the
    same timestamp; so when the first two entries of the begin queue and the
    head of the end queue share one timestamp, two iterations of the loop
    dequeue both begin entries and leave the end queue as it was. *)
Theorem getNextQueue_earliest_begin_on_tie
  (nextBegin nextEnd : Event) (bq eq : list Event) :
  (ts nextBegin < ts nextEnd -> getNextQueue (nextBegin :: bq) (nextEnd :: eq) = Ok QB)
  /\ (ts nextEnd < ts nextBegin -> getNextQueue (nextBegin :: bq) (nextEnd :: eq) = Ok QE)
  /\ (ts nextBegin = ts nextEnd -> getNextQueue (nextBegin :: bq) (nextEnd :: eq) = Ok QB)
  /\ (forall (firstTimestamp : Z) (second : Event) (st : Locals),
        beginQueue st = nextBegin :: second :: bq ->
        endQueue st = nextEnd :: eq ->
        ts nextBegin = ts nextEnd ->
        ts second = ts nextEnd ->
        exists st2 frame1 frame2,
          (let? st1 := step firstTimestamp st in step firstTimestamp st1) = Ok st2
          /\ beginQueue st2 = bq
          /\ endQueue st2 = nextEnd :: eq
          /\ stack st2 = second :: nextBegin :: stack st
          /\ calls st2 = calls st ++ [enterFrame frame1 (ts nextBegin - firstTimestamp);
                                      enterFrame frame2 (ts second - firstTimestamp)]).
Proof.
  repeat split.
  - intros H. rewrite getNextQueue_cons.
    destruct (Z.ltb_spec (ts nextBegin) (ts nextEnd)); [done|lia].
  - intros H. rewrite getNextQueue_cons.
    destruct (Z.ltb_spec (ts nextBegin) (ts nextEnd)); [lia|].
    destruct (Z.ltb_spec (ts nextEnd) (ts nextBegin)); [done|lia].
  - intros H. rewrite getNextQueue_cons.
    destruct (Z.ltb_spec (ts nextBegin) (ts nextEnd)); [done|].
    destruct (Z.ltb_spec (ts nextEnd) (ts nextBegin)); [lia|done].
  - intros firstTimestamp second st Hb He H1 H2.
    destruct (begin_step_spec firstTimestamp st _ _ Hb) as (frame1 & cache1 & Hs1 & _ & _).
    set (st1 := {| processName := processName st; threadName := threadName st;
                   beginQueue := second :: bq; endQueue := endQueue st;
                   stack := nextBegin :: stack st; frameCache := cache1;
                   calls := calls st ++ [enterFrame frame1 (ts nextBegin - firstTimestamp)] |}) in *.
    destruct (begin_step_spec firstTimestamp st1 second bq eq_refl)
      as (frame2 & cache2 & Hs2 & _ & _).
    eexists _, frame1, frame2. split.
    + unfold step at 1. rewrite Hb, He, getNextQueue_cons.
      replace (ts nextBegin <? ts nextEnd) with false by (symmetry; apply Z.ltb_ge; lia).
      replace (ts nextEnd <? ts nextBegin) with false by (symmetry; apply Z.ltb_ge; lia).
      cbn [bind]. rewrite Hs1. cbn [bind].
      unfold step. cbn [beginQueue endQueue st1]. rewrite He, getNextQueue_cons.
      replace (ts second <? ts nextEnd) with false by (symmetry; apply Z.ltb_ge; lia).
      replace (ts nextEnd <? ts second) with false by (symmetry; apply Z.ltb_ge; lia).
      cbn [bind]. exact Hs2.
    + cbn. rewrite <- app_assoc. auto.
Qed.

(** Two begins and one end at timestamp 7: the begins are selected first. *)
Lemma getNextQueue_earliest_begin_on_tie_witness :
  exists st2 frame1 frame2,
    (let? st1 := step 7 (set_endQueue [sample (Some 1) (Some 1) 7 E "f" "{}"]
                          (set_beginQueue [sample (Some 1) (Some 1) 7 B "f" "{}";
                                           sample (Some 1) (Some 1) 7 B "g" "{1}"]
                             (initial "1" "1"))) in
     step 7 st1) = Ok st2
    /\ beginQueue st2 = []
    /\ endQueue st2 = [sample (Some 1) (Some 1) 7 E "f" "{}"]
    /\ stack st2 = [sample (Some 1) (Some 1) 7 B "g" "{1}"; sample (Some 1) (Some 1) 7 B "f" "{}"]
    /\ calls st2 = [] ++ [enterFrame frame1 (7 - 7); enterFrame frame2 (7 - 7)].
Proof.
  apply (proj2 (proj2 (proj2 (getNextQueue_earliest_begin_on_tie
           (sample (Some 1) (Some 1) 7 B "f" "{}")
           (sample (Some 1) (Some 1) 7 E "f" "{}") [] [])))
         7 (sample (Some 1) (Some 1) 7 B "g" "{1}"));
    reflexivity.
Defined.

(** ** The normalizer *)

Lemma collect_snoc (processId threadId : string) (events : list Event) (e : Event) :
  isTimelineEvent e = true ->
  collect processId threadId (events ++ [e]) =
    collect_event processId threadId (collect processId threadId events) e.
Proof.
  intros He. unfold collect. rewrite List.filter_app. cbn [List.filter]. rewrite He.
  apply fold_left_app.
Qed.

(** C5: a Complete event whose [dur] is a number, or whose [dur] is absent
    and whose [tdur] is a number, adds to the begin queue a copy of itself
    with phase B, at its own [ts], and to the end queue a copy of itself with
    phase E, at [ts] plus the duration, the duration being [dur] when it is
    there and [tdur] otherwise; with neither field it leaves both queues as
    they were. *)
Theorem complete_event_contribution
  (processId threadId : string) (before : list Event) (e : Event) :
  ph e = X ->
  let st := collect processId threadId before in
  let st' := collect processId threadId (before ++ [e]) in
  let entry (phase : Phase) (time : Z) :=
    {| pid := pid e; tid := tid e; ts := time; ph := phase;
       name := name e; args := args e; dur := dur e; tdur := tdur e |} in
  (forall d, dur e = Some d ->
     beginQueue st' = beginQueue st ++ [entry B (ts e)]
     /\ endQueue st' = endQueue st ++ [entry E (ts e + d)])
  /\ (forall d, dur e = None -> tdur e = Some d ->
        beginQueue st' = beginQueue st ++ [entry B (ts e)]
        /\ endQueue st' = endQueue st ++ [entry E (ts e + d)])
  /\ (dur e = None -> tdur e = None ->
        beginQueue st' = beginQueue st /\ endQueue st' = endQueue st).
Proof.
  intros Hph st st' entry. subst st st' entry.
  rewrite collect_snoc by (unfold isTimelineEvent; rewrite Hph; reflexivity).
  set (st := collect processId threadId before).
  assert (Hc : collect_event processId threadId st e = push_event st e).
  { unfold collect_event. rewrite Hph. reflexivity. }
  rewrite Hc. unfold push_event, with_ph, with_ph_ts. rewrite Hph.
  split; [|split].
  - intros d Hd. rewrite Hd. cbn. split; reflexivity.
  - intros d Hd Htd. rewrite Hd, Htd. cbn. split; reflexivity.
  - intros Hd Htd. rewrite Hd, Htd. cbn. split; reflexivity.
Qed.

(** The event [{ts: 0, dur: 10, name: "f", args: {}}] alone in its bucket:
    a begin entry at 0 and an end entry at 0 + 10. *)
Lemma complete_event_contribution_witness :
  let e := sample_complete 0 "f" "{}" (Some 10) None in
  let entry (phase : Phase) (time : Z) :=
    {| pid := pid e; tid := tid e; ts := time; ph := phase;
       name := name e; args := args e; dur := dur e; tdur := tdur e |} in
  beginQueue (collect "1" "1" ([] ++ [e])) = beginQueue (collect "1" "1" []) ++ [entry B 0]
  /\ endQueue (collect "1" "1" ([] ++ [e])) = endQueue (collect "1" "1" []) ++ [entry E (0 + 10)].
Proof.
  exact (proj1 (complete_event_contribution "1" "1" []
                  (sample_complete 0 "f" "{}" (Some 10) None) eq_refl) 10 eq_refl).
Defined.

Example complete_event_queues :
  let st := collect "1" "1" [sample_complete 3 "f" "{}" None (Some 4)] in
  map ts (beginQueue st) = [3] /\ map ts (endQueue st) = [7]
  /\ map ph (beginQueue st) = [B] /\ map ph (endQueue st) = [E].
Proof. repeat split. Qed.

(** ** The End branch on an empty stack *)



Example end_before_begin_type_error :
  buildProfile call_count_weight "1" "1"
    [sample (Some 1) (Some 1) 5 B "f" "{}"; sample (Some 1) (Some 1) 1 E "f" "{}"]
  = Throw TypeError.
Proof. reflexivity. Qed.

(** ** A bucket with a single End event *)

(** C4, as stated, fails: the bucket of one End event is rejected by the
    guard on the empty begin queue, with another error. *)
Lemma lone_end_not_never_entered :
  buildProfile call_count_weight "1" "1" [sample (Some 1) (Some 1) 0 E "f" "{}"]
    = Throw NoFrameEvents
  /\ Throw NoFrameEvents <> @Throw EventedProfile.t (NeverEntered "{}").
Proof. split; [reflexivity|discriminate]. Qed.

(** C4, amended: for a bucket whose only event is a single End event,
    building the profile fails with the error "Profile does not contain any
    frame events". *)
Theorem lone_end_no_frame_events
  (totalWeight : list Call -> Frame.t -> Z) (processId threadId : string) (e : Event) :
  ph e = E ->
  buildProfile totalWeight processId threadId [e] = Throw NoFrameEvents
  /\ message NoFrameEvents = "Profile does not contain any frame events".
Proof.
  intros Hph. split; [|reflexivity].
  unfold buildProfile, run_timeline, normalize, collect.
  cbn [List.filter]. unfold isTimelineEvent. rewrite Hph. cbn [bool_decide orb fold_left].
  replace (bool_decide (E = B) || bool_decide (E = E) || bool_decide (E = X) || bool_decide (E = M))
    with true by reflexivity.
  cbn [fold_left]. unfold collect_event, push_event. rewrite Hph.
  destruct (arg_name (args e)); reflexivity.
Qed.

Lemma lone_end_no_frame_events_witness :
  buildProfile call_count_weight "1" "1" [sample (Some 1) (Some 1) 0 E "f" "{}"]
    = Throw NoFrameEvents
  /\ message NoFrameEvents = "Profile does not contain any frame events".
Proof.
  exact (lone_end_no_frame_events call_count_weight "1" "1"
           (sample (Some 1) (Some 1) 0 E "f" "{}") eq_refl).
Defined.

(** ** The format detector *)

(** C7, as stated, fails: [null] is neither an array nor an object with a
    [traceEvents] field, and the import of [null] ends in the runtime's
    TypeError ([typeof null] is ['object'], and [in] rejects [null]). *)
Lemma import_null_type_error :
  importChromeTrace call_count_weight Js.Null = Throw TypeError
  /\ @Throw ProfileGroup.t TypeError <> Throw FailedToParse.
Proof. split; [reflexivity|discriminate]. Qed.

(** C7, amended: [importChromeTrace] fails with "Chrometrace object format
    is not yet supported" on an object with a [traceEvents] field, whatever
    the field holds; it returns what [parseChromeTraceArrayFormat] returns
    on an array; and it fails with "Failed to parse trace input format" on
    every other input except [null]. *)
Theorem importChromeTrace_dispatch
  (totalWeight : list Call -> Frame.t -> Z) (input : Js.Value) :
  (forall properties,
      input = Js.Object properties -> "traceEvents" ∈ properties ->
      importChromeTrace totalWeight input = Throw ObjectFormatNotSupported)
  /\ (forall events,
        input = Js.Array events ->
        importChromeTrace totalWeight input = parseChromeTraceArrayFormat totalWeight events)
  /\ (input <> Js.Null ->
      Js.isArray input = false ->
      (forall properties, input = Js.Object properties -> "traceEvents" ∉ properties) ->
      importChromeTrace totalWeight input = Throw FailedToParse)
  /\ message ObjectFormatNotSupported = "Chrometrace object format is not yet supported"
  /\ message FailedToParse = "Failed to parse trace input format".
Proof.
  repeat split.
  - intros properties -> Hin. unfold importChromeTrace, isChromeTraceObjectFormat.
    cbn. rewrite bool_decide_eq_true_2 by exact Hin. reflexivity.
  - intros events ->. reflexivity.
  - intros Hnull Harr Hobj. destruct input; try reflexivity; try done.
    unfold importChromeTrace, isChromeTraceObjectFormat. cbn.
    rewrite bool_decide_eq_false_2 by (apply Hobj; reflexivity). reflexivity.
Qed.

Lemma importChromeTrace_dispatch_witness :
  importChromeTrace call_count_weight (Js.Object ["displayTimeUnit"; "traceEvents"])
    = Throw ObjectFormatNotSupported
  /\ importChromeTrace call_count_weight (Js.String "[]") = Throw FailedToParse
  /\ importChromeTrace call_count_weight (Js.Object ["displayTimeUnit"]) = Throw FailedToParse.
Proof.
  split; [|split].
  - apply (proj1 (importChromeTrace_dispatch call_count_weight
                    (Js.Object ["displayTimeUnit"; "traceEvents"]))
             ["displayTimeUnit"; "traceEvents"] eq_refl).
    set_solver.
  - apply (proj1 (proj2 (proj2 (importChromeTrace_dispatch call_count_weight (Js.String "[]")))));
      [discriminate | reflexivity | discriminate].
  - apply (proj1 (proj2 (proj2 (importChromeTrace_dispatch call_count_weight
                                  (Js.Object ["displayTimeUnit"]))))).
    + discriminate.
    + reflexivity.
    + intros properties ? Hin. simplify_eq. apply list_elem_of_singleton in Hin. discriminate.
Defined.

(** ** The End branch on entries that share a timestamp *)

(** C1 at the trace [B(h)@0, B(g)@1, E(h)@5, E(g)@5]: with [g] on top of the
    stack and the end queue [E(h), E(g)], the head [E(h)] is taken off the
    queue before the scan and is the entry that is closed; [E(g)] is closed
    on the next iteration. *)
Theorem end_branch_closes_head_before_sibling (totalWeight : list Call -> Frame.t -> Z) :
  let h := {| Frame.key := "{h}"; Frame.name := "h {h}" |} in
  let g := {| Frame.key := "{g}"; Frame.name := "g {g}" |} in
  buildProfile totalWeight "1" "1"
    [sample (Some 1) (Some 1) 0 B "h" "{h}"; sample (Some 1) (Some 1) 1 B "g" "{g}";
     sample (Some 1) (Some 1) 5 E "h" "{h}"; sample (Some 1) (Some 1) 5 E "g" "{g}"]
  = Ok {| EventedProfile.name := "pid (1): tid (1)";
          EventedProfile.calls := [enterFrame h 0; enterFrame g 1; leaveFrame h 5; leaveFrame g 5] |}.
Proof. reflexivity. Qed.

(** The same on the state the End branch starts from: the step removes
    [E(h)] from the end queue, keeps [E(g)] pending and leaves [h]. *)
Example end_step_on_tied_run :
  let h := {| Frame.key := "{h}"; Frame.name := "h {h}" |} in
  let g := {| Frame.key := "{g}"; Frame.name := "g {g}" |} in
  let st := {| processName := "pid (1)"; threadName := "tid (1)"; beginQueue := [];
               endQueue := [sample (Some 1) (Some 1) 5 E "h" "{h}";
                            sample (Some 1) (Some 1) 5 E "g" "{g}"];
               stack := [sample (Some 1) (Some 1) 1 B "g" "{g}";
                         sample (Some 1) (Some 1) 0 B "h" "{h}"];
               frameCache := <["{g}" := g]> (<["{h}" := h]> ∅);
               calls := [] |} in
  (st' ← match step 0 st with Ok st' => Some st' | Throw _ => None end;
   Some (endQueue st', stack st', calls st'))
  = Some ([sample (Some 1) (Some 1) 5 E "g" "{g}"],
          [sample (Some 1) (Some 1) 0 B "h" "{h}"],
          [leaveFrame h 5]).
Proof. reflexivity. Qed.

(** ** What one iteration does to the local variables *)

Lemma end_step_spec (firstTimestamp : Z) (st st' : Locals) :
  end_step firstTimestamp st = Ok st' ->
  exists item q top rest frame,
    endQueue st = item :: q
    /\ stack st = top :: rest
    /\ stack st' = rest
    /\ calls st' = calls st ++ [leaveFrame frame (ts item - firstTimestamp)]
    /\ frameCache st' = frameCache st
    /\ beginQueue st' = beginQueue st
    /\ length (endQueue st') = length q
    /\ processName st' = processName st
    /\ threadName st' = threadName st.
Proof.
  unfold end_step. destruct (endQueue st) as [|item q] eqn:Hq; [discriminate|].
  locals. destruct (stack st) as [|top rest] eqn:Hs; [discriminate|].
  set (found := match q with
                | [] => None
                | head :: rest0 => find_sibling _ (ts head) rest0 1
                end).
  destruct found as [[i nextEnd]|], (head q) as [tmp|];
    locals;
    match goal with
    | |- context [frameCache st !! ?k] => destruct (frameCache st !! k) as [frame|]
    end;
    intros Hok; inversion Hok; subst; clear Hok; cbn;
    exists item, q, top, rest, frame; rewrite ?Hs, ?length_insert; cbn;
    repeat split; reflexivity.
Qed.

Lemma step_spec (firstTimestamp : Z) (st st' : Locals) :
  step firstTimestamp st = Ok st' ->
  (exists item q frame,
      beginQueue st = item :: q
      /\ beginQueue st' = q
      /\ endQueue st' = endQueue st
      /\ stack st' = item :: stack st
      /\ calls st' = calls st ++ [enterFrame frame (ts item - firstTimestamp)]
      /\ frameCache st' !! event_key item = Some frame
      /\ (forall k, is_Some (frameCache st !! k) -> is_Some (frameCache st' !! k))
      /\ processName st' = processName st
      /\ threadName st' = threadName st)
  \/ (exists item q top rest frame,
        endQueue st = item :: q
        /\ stack st = top :: rest
        /\ stack st' = rest
        /\ calls st' = calls st ++ [leaveFrame frame (ts item - firstTimestamp)]
        /\ frameCache st' = frameCache st
        /\ beginQueue st' = beginQueue st
        /\ length (endQueue st') = length q
        /\ processName st' = processName st
        /\ threadName st' = threadName st).
Proof.
  unfold step. destruct (getNextQueue (beginQueue st) (endQueue st)) as [[|]|]; cbn [bind].
  - intros Hok. left.
    destruct (beginQueue st) as [|item q] eqn:Hq; [unfold begin_step in Hok; rewrite Hq in Hok; discriminate|].
    destruct (begin_step_spec firstTimestamp st item q Hq) as (frame & cache & Hs & Hf & Hmono).
    rewrite Hs in Hok. inversion Hok; subst; clear Hok. cbn.
    exists item, q, frame. repeat split; auto.
  - intros Hok. right. by apply end_step_spec.
  - discriminate.
Qed.

Lemma step_measure (firstTimestamp : Z) (st st' : Locals) :
  step firstTimestamp st = Ok st' ->
  (length (beginQueue st) + length (endQueue st) =
   S (length (beginQueue st') + length (endQueue st')))%nat.
Proof.
  intros [(item & q & frame & Hb & Hb' & He' & _)
         |(item & q & top & rest & frame & He & _ & _ & _ & _ & Hb' & Hlen & _)]%step_spec.
  - rewrite Hb, Hb', He'. reflexivity.
  - rewrite He, Hb', Hlen. cbn. lia.
Qed.

Lemma step_stack_cached (firstTimestamp : Z) (st st' : Locals) :
  step firstTimestamp st = Ok st' -> stack_cached st -> stack_cached st'.
Proof.
  unfold stack_cached.
  intros [(item & q & frame & _ & _ & _ & Hs & _ & Hf & Hmono & _)
         |(item & q & top & rest & frame & _ & Hs & Hs' & _ & Hc & _)]%step_spec Hinv.
  - rewrite Hs. constructor; [rewrite Hf; eauto|].
    eapply Forall_impl; [exact Hinv|]. intros e He. by apply Hmono.
  - rewrite Hs', Hc. rewrite Hs in Hinv. by inversion Hinv.
Qed.

Lemma step_balanced (firstTimestamp : Z) (st st' : Locals) :
  step firstTimestamp st = Ok st' -> balanced st -> balanced st'.
Proof.
  unfold balanced.
  intros [(item & q & frame & _ & _ & _ & Hs & Hc & _)
         |(item & q & top & rest & frame & _ & Hs & Hs' & Hc & _)]%step_spec Hinv.
  - rewrite Hs, Hc, !List.filter_app, !length_app. cbn. lia.
  - rewrite Hs', Hc, !List.filter_app, !length_app. rewrite Hs in Hinv. cbn in *. lia.
Qed.

(** ** The merge loop as a whole *)

Section MergeLoop.

Variable firstTimestamp : Z.
Variable P : Locals -> Prop.
Hypothesis P_step : forall st st', step firstTimestamp st = Ok st' -> P st -> P st'.

Lemma merge_loop_invariant (budget : nat) (st st' : Locals) :
  merge_loop firstTimestamp budget st = Ok st' -> P st -> P st'.
Proof.
  revert st. induction budget as [|budget IH]; intros st; cbn [merge_loop].
  - destruct (drained st); [|discriminate]. by intros [= <-].
  - destruct (drained st); [by intros [= <-]|].
    destruct (step firstTimestamp st) as [st1|] eqn:Hstep; cbn [bind]; [|discriminate].
    intros Hloop HP. eapply IH; [exact Hloop|]. by eapply P_step.
Qed.

End MergeLoop.

Lemma merge_loop_drained (firstTimestamp : Z) (budget : nat) (st st' : Locals) :
  merge_loop firstTimestamp budget st = Ok st' -> drained st' = true.
Proof.
  revert st. induction budget as [|budget IH]; intros st; cbn [merge_loop].
  - destruct (drained st) eqn:Hd; [|discriminate]. by intros [= <-].
  - destruct (drained st) eqn:Hd; [by intros [= <-]|].
    destruct (step firstTimestamp st) as [st1|]; cbn [bind]; [apply IH|discriminate].
Qed.

(** The budget [buildProfile] gives the loop is never exhausted. *)
Lemma merge_loop_budget (firstTimestamp : Z) (budget : nat) (st : Locals) :
  (length (beginQueue st) + length (endQueue st) <= budget)%nat ->
  merge_loop firstTimestamp budget st <> Throw LoopBudgetExhausted.
Proof.
  revert st. induction budget as [|budget IH]; intros st Hle; cbn [merge_loop].
  - unfold drained.
    destruct (beginQueue st), (endQueue st); cbn in *; try lia. discriminate.
  - destruct (drained st); [discriminate|].
    destruct (step firstTimestamp st) as [st1|e] eqn:Hstep; cbn [bind].
    + apply IH. apply step_measure in Hstep. lia.
    + intros [= ->]. revert Hstep. unfold step.
      destruct (getNextQueue (beginQueue st) (endQueue st)) as [[|]|e] eqn:Hn; cbn [bind].
      * unfold begin_step. destruct (beginQueue st); [discriminate|]. locals.
        repeat match goal with
               | |- context [match ?x with _ => _ end] => destruct x eqn:?; try discriminate
               end.
      * unfold end_step. destruct (endQueue st); [discriminate|]. locals.
        repeat match goal with
               | |- context [match ?x with _ => _ end] => destruct x eqn:?; try discriminate
               end.
      * revert Hn. unfold getNextQueue.
        repeat match goal with
               | |- context [match ?x with _ => _ end] => destruct x eqn:?; try discriminate
               | |- context [if ?x then _ else _] => destruct x eqn:?; try discriminate
               end.
        intros [= <-]. discriminate.
Qed.

(** ** The state the merge loop starts from *)

Lemma collect_event_fresh (processId threadId : string) (st : Locals) (e : Event) :
  stack (collect_event processId threadId st e) = stack st
  /\ frameCache (collect_event processId threadId st e) = frameCache st
  /\ calls (collect_event processId threadId st e) = calls st.
Proof.
  unfold collect_event, push_event.
  repeat match goal with
         | |- context [match ?x with _ => _ end] => destruct x
         | |- context [if ?x then _ else _] => destruct x
         end; locals; auto.
Qed.

Lemma normalize_fresh (processId threadId : string) (events : list Event) :
  stack (normalize processId threadId events) = []
  /\ frameCache (normalize processId threadId events) = ∅
  /\ calls (normalize processId threadId events) = [].
Proof.
  unfold normalize, collect. locals.
  generalize (List.filter isTimelineEvent events). intros l.
  assert (H : forall st,
             stack st = [] /\ frameCache st = ∅ /\ calls st = [] ->
             stack (fold_left (collect_event processId threadId) l st) = []
             /\ frameCache (fold_left (collect_event processId threadId) l st) = ∅
             /\ calls (fold_left (collect_event processId threadId) l st) = []).
  { induction l as [|e l IH]; intros st Hst; [exact Hst|]. cbn [fold_left]. apply IH.
    destruct (collect_event_fresh processId threadId st e) as (-> & -> & ->). exact Hst. }
  apply H. auto.
Qed.

Lemma normalize_invariants (processId threadId : string) (events : list Event) :
  stack_cached (normalize processId threadId events)
  /\ balanced (normalize processId threadId events).
Proof.
  destruct (normalize_fresh processId threadId events) as (Hs & Hc & Hl).
  unfold stack_cached, balanced. rewrite Hs, Hl. split; [constructor|reflexivity].
Qed.

(** ** The forced closes *)

Lemma close_leftover_spec
  (totalWeight : list Call -> Frame.t -> Z) (pending : list Event) (st : Locals) :
  Forall (fun e => is_Some (frameCache st !! event_key e)) pending ->
  stack st = pending ->
  exists st' added,
    close_leftover totalWeight pending st = Ok st'
    /\ stack st' = []
    /\ frameCache st' = frameCache st
    /\ processName st' = processName st
    /\ threadName st' = threadName st
    /\ calls st' = calls st ++ added
    /\ length added = length pending
    /\ Forall (fun c => is_leave c = true) added
    /\ forall (i : nat) (item : Event),
         pending !! i = Some item ->
         exists frame,
           frameCache st !! event_key item = Some frame
           /\ added !! i = Some (leaveFrame frame (totalWeight (calls st ++ take i added) frame)).
Proof.
  revert st. induction pending as [|item pending IH]; intros st Hall Hst.
  - exists st, []. cbn. rewrite app_nil_r. repeat split; auto. intros i item Hi. done.
  - inversion Hall as [|? ? [frame Hframe] Hrest]; subst.
    cbn [close_leftover]. locals. fold (event_key item). rewrite Hframe.
    set (st1 := {| processName := processName st; threadName := threadName st;
                   beginQueue := beginQueue st; endQueue := endQueue st; stack := pending;
                   frameCache := frameCache st;
                   calls := calls st ++ [leaveFrame frame (totalWeight (calls st) frame)] |}).
    destruct (IH st1 Hrest eq_refl)
      as (st' & added & Hrun & Hs & Hc & Hp & Ht & Hcalls & Hlen & Hleave & Hith).
    exists st', (leaveFrame frame (totalWeight (calls st) frame) :: added).
    split; [exact Hrun|]. split; [exact Hs|]. split; [exact Hc|].
    split; [exact Hp|]. split; [exact Ht|].
    split; [rewrite Hcalls; cbn; rewrite <- app_assoc; reflexivity|].
    split; [cbn; lia|]. split; [constructor; [reflexivity|exact Hleave]|].
    intros [|i] item' Hi; cbn in Hi.
    + injection Hi as <-. exists frame. split; [exact Hframe|]. cbn.
      rewrite app_nil_r. reflexivity.
    + destruct (Hith i item' Hi) as (frame' & Hf' & Ha'). exists frame'.
      split; [exact Hf'|]. cbn [lookup take]. cbn. rewrite Ha'. cbn.
      rewrite <- app_assoc. reflexivity.
Qed.

Lemma drained_begin (st : Locals) (x : Event) (q : list Event) :
  beginQueue st = x :: q -> drained st = false.
Proof. unfold drained. intros ->. reflexivity. Qed.

Lemma drained_end (st : Locals) (x : Event) (q : list Event) :
  endQueue st = x :: q -> drained st = false.
Proof. unfold drained. intros ->. apply andb_false_r. Qed.

Lemma drained_nil (st : Locals) :
  beginQueue st = [] -> endQueue st = [] -> drained st = true.
Proof. unfold drained. intros -> ->. reflexivity. Qed.

(** C3: when the merge loop of [buildProfile] has drained both queues, the
    events still on the stack are popped from the top down; each pop succeeds
    and issues one [leaveFrame] for the popped event's frame, whose time
    argument is the total weight that frame has when the call is made; the
    stack is empty afterwards, and [buildProfile] returns the profile that has
    received the calls of the merge loop followed by these.  A bucket with a
    lone Begin event gives one [enterFrame] at time 0 and one [leaveFrame] at
    the weight the frame has after that call. *)
Theorem forced_close_tail
  (totalWeight : list Call -> Frame.t -> Z) (processId threadId : string) :
  (forall (events : list Event) (first : Event) (q : list Event) (merged : Locals),
     beginQueue (normalize processId threadId events) = first :: q ->
     merge_loop (ts first)
       (length (beginQueue (normalize processId threadId events))
        + length (endQueue (normalize processId threadId events)))
       (normalize processId threadId events) = Ok merged ->
     exists final added,
       close_leftover totalWeight (stack merged) merged = Ok final
       /\ stack final = []
       /\ calls final = calls merged ++ added
       /\ buildProfile totalWeight processId threadId events
          = Ok {| EventedProfile.name := processName merged +:+ ": " +:+ threadName merged;
                  EventedProfile.calls := calls merged ++ added |}
       /\ length added = length (stack merged)
       /\ forall (i : nat) (item : Event),
            stack merged !! i = Some item ->
            exists frame,
              frameCache merged !! event_key item = Some frame
              /\ added !! i
                 = Some (leaveFrame frame
                           (totalWeight (calls merged ++ take i added) frame)))
  /\ (forall b : Event,
        ph b = B ->
        let f := Frame.new (createFrameInfoFromEvent b) in
        buildProfile totalWeight processId threadId [b]
        = Ok {| EventedProfile.name :=
                  ("pid (" +:+ processId +:+ ")") +:+ ": "
                  +:+ ("tid (" +:+ threadId +:+ ")");
                EventedProfile.calls :=
                  [enterFrame f 0; leaveFrame f (totalWeight [enterFrame f 0] f)] |}).
Proof.
  split.
  - intros events first q merged Hq Hloop.
    assert (Hinv : stack_cached merged).
    { eapply (merge_loop_invariant (ts first) stack_cached); [|exact Hloop|].
      - intros ? ?. apply step_stack_cached.
      - apply normalize_invariants. }
    destruct (close_leftover_spec totalWeight (stack merged) merged Hinv eq_refl)
      as (final & added & Hrun & Hs & _ & Hp & Ht & Hcalls & Hlen & _ & Hith).
    exists final, added.
    split; [exact Hrun|]. split; [exact Hs|]. split; [exact Hcalls|].
    split; [|split; [exact Hlen|exact Hith]].
    unfold buildProfile, run_timeline. rewrite Hq in Hloop |- *.
    rewrite Hloop. cbn [bind]. rewrite Hrun. cbn [bind].
    unfold build. rewrite Hp, Ht, Hcalls. reflexivity.
  - intros b Hb f. unfold buildProfile, run_timeline.
    assert (Hn : normalize processId threadId [b]
                 = {| processName := "pid (" +:+ processId +:+ ")";
                      threadName := "tid (" +:+ threadId +:+ ")";
                      beginQueue := [b]; endQueue := [];
                      stack := []; frameCache := ∅; calls := [] |}).
    { unfold normalize, collect. cbn [List.filter].
      replace (isTimelineEvent b) with true by (unfold isTimelineEvent; by rewrite Hb).
      cbn [fold_left]. unfold collect_event, push_event. rewrite Hb. reflexivity. }
    rewrite Hn.
    set (st0 := {| processName := "pid (" +:+ processId +:+ ")";
                   threadName := "tid (" +:+ threadId +:+ ")";
                   beginQueue := [b]; endQueue := [];
                   stack := []; frameCache := ∅; calls := [] |}).
    cbn [beginQueue st0 length Nat.add endQueue merge_loop].
    rewrite (drained_begin st0 _ _ eq_refl).
    set (st1 := {| processName := "pid (" +:+ processId +:+ ")";
                   threadName := "tid (" +:+ threadId +:+ ")";
                   beginQueue := []; endQueue := []; stack := [b];
                   frameCache := <[FrameInfo.key (createFrameInfoFromEvent b) := f]> ∅;
                   calls := [enterFrame f (ts b - ts b)] |}).
    assert (Hstep0 : step (ts b) st0 = Ok st1).
    { unfold step. change (getNextQueue (beginQueue st0) (endQueue st0)) with (Ok QB).
      cbn [bind]. unfold begin_step, st0, st1. locals.
      rewrite lookup_empty. locals. rewrite lookup_insert_eq. reflexivity. }
    rewrite Hstep0. cbn [bind]. rewrite (drained_nil st1 eq_refl eq_refl).
    unfold st1. cbn [stack]. unfold close_leftover. locals.
    rewrite lookup_insert_eq. cbn [bind app]. unfold build. locals.
    replace (ts b - ts b) with 0 by lia. reflexivity.
Qed.

(** A lone begin event at 4: the merge loop ends with the event on the stack
    and one [enterFrame] call; one forced close follows, at the frame's own
    weight. *)
Lemma forced_close_tail_witness :
  let lone := sample (Some 1) (Some 1) 4 B "f" "{}" in
  let f := {| Frame.key := "{}"; Frame.name := "f {}" |} in
  let merged := {| processName := "pid (1)"; threadName := "tid (1)"; beginQueue := [];
                   endQueue := []; stack := [lone]; frameCache := <["{}" := f]> ∅;
                   calls := [enterFrame f 0] |} in
  (exists final added,
     close_leftover call_count_weight (stack merged) merged = Ok final
     /\ stack final = []
     /\ calls final = calls merged ++ added
     /\ buildProfile call_count_weight "1" "1" [lone]
        = Ok {| EventedProfile.name := processName merged +:+ ": " +:+ threadName merged;
                EventedProfile.calls := calls merged ++ added |}
     /\ length added = length (stack merged)
     /\ exists frame,
          frameCache merged !! event_key lone = Some frame
          /\ added !! 0%nat
             = Some (leaveFrame frame
                       (call_count_weight (calls merged ++ take 0 added) frame)))
  /\ buildProfile call_count_weight "1" "1" [lone]
     = Ok {| EventedProfile.name := ("pid (" +:+ "1" +:+ ")") +:+ ": " +:+ ("tid (" +:+ "1" +:+ ")");
             EventedProfile.calls :=
               [enterFrame (Frame.new (createFrameInfoFromEvent lone)) 0;
                leaveFrame (Frame.new (createFrameInfoFromEvent lone))
                  (call_count_weight
                     [enterFrame (Frame.new (createFrameInfoFromEvent lone)) 0]
                     (Frame.new (createFrameInfoFromEvent lone)))] |}.
Proof.
  split.
  - destruct (proj1 (forced_close_tail call_count_weight "1" "1")
                [sample (Some 1) (Some 1) 4 B "f" "{}"]
                (sample (Some 1) (Some 1) 4 B "f" "{}") []
                {| processName := "pid (1)"; threadName := "tid (1)"; beginQueue := [];
                   endQueue := []; stack := [sample (Some 1) (Some 1) 4 B "f" "{}"];
                   frameCache := <["{}" := {| Frame.key := "{}"; Frame.name := "f {}" |}]> ∅;
                   calls := [enterFrame {| Frame.key := "{}"; Frame.name := "f {}" |} 0] |}
                eq_refl eq_refl)
      as (final & added & Hrun & Hs & Hcalls & Hbuild & Hlen & Hith).
    exists final, added.
    split; [exact Hrun|]. split; [exact Hs|]. split; [exact Hcalls|].
    split; [exact Hbuild|]. split; [exact Hlen|].
    exact (Hith 0%nat (sample (Some 1) (Some 1) 4 B "f" "{}") eq_refl).
  - exact (proj2 (forced_close_tail call_count_weight "1" "1")
             (sample (Some 1) (Some 1) 4 B "f" "{}") eq_refl).
Defined.

Example lone_begin_forced_close :
  buildProfile call_count_weight "1" "1" [sample (Some 1) (Some 1) 4 B "f" "{}"]
  = Ok {| EventedProfile.name := "pid (1): tid (1)";
          EventedProfile.calls :=
            let f := {| Frame.key := "{}"; Frame.name := "f {}" |} in
            [enterFrame f 0; leaveFrame f (call_count_weight [enterFrame f 0] f)] |}.
Proof. reflexivity. Qed.

(** ** Entered and left frames *)

(** C9, as stated, fails: on the events B h at 0, B g at 1 and E h at 2
    [buildProfile] returns a profile in which the frame of g is entered once
    and never left, and the frame of h is entered once and left twice: the
    End event pops the stack entry of g and passes the frame cached under
    its own key, that of h, to [leaveFrame]; the tail then closes h again. *)
Lemma entered_frame_never_left :
  let events := [sample (Some 1) (Some 1) 0 B "h" "{h}"; sample (Some 1) (Some 1) 1 B "g" "{g}";
                 sample (Some 1) (Some 1) 2 E "h" "{h}"] in
  exists profile,
    buildProfile call_count_weight "1" "1" events = Ok profile
    /\ enters_of "{g}" (EventedProfile.calls profile) = 1%nat
    /\ leaves_of "{g}" (EventedProfile.calls profile) = 0%nat
    /\ enters_of "{h}" (EventedProfile.calls profile) = 1%nat
    /\ leaves_of "{h}" (EventedProfile.calls profile) = 2%nat.
Proof. eexists. split; [vm_compute; reflexivity|]. vm_compute. repeat split. Qed.

(** C9, amended: when [buildProfile] returns a profile, the merge loop has ended
    with as many [enterFrame] calls as [leaveFrame] calls and stack entries
    together, the tail has added one [leaveFrame] call for each entry left on
    the stack, the stack is empty when the profile is built, and the profile
    has received as many [leaveFrame] calls as [enterFrame] calls. *)
Theorem enter_leave_balance
  (totalWeight : list Call -> Frame.t -> Z) (processId threadId : string)
  (events : list Event) (profile : EventedProfile.t) :
  buildProfile totalWeight processId threadId events = Ok profile ->
  exists firstTimestamp budget merged final added,
    merge_loop firstTimestamp budget (normalize processId threadId events) = Ok merged
    /\ length (List.filter is_enter (calls merged))
       = (length (List.filter is_leave (calls merged)) + length (stack merged))%nat
    /\ close_leftover totalWeight (stack merged) merged = Ok final
    /\ calls final = calls merged ++ added
    /\ Forall (fun c => is_leave c = true) added
    /\ length added = length (stack merged)
    /\ stack final = []
    /\ profile = build final
    /\ length (List.filter is_leave (EventedProfile.calls profile))
       = length (List.filter is_enter (EventedProfile.calls profile)).
Proof.
  unfold buildProfile.
  destruct (run_timeline totalWeight (normalize processId threadId events)) as [st|] eqn:Hrun;
    cbn [bind]; [|discriminate].
  intros [= <-]. revert Hrun. unfold run_timeline.
  destruct (beginQueue (normalize processId threadId events)) as [|first q] eqn:Hq;
    [discriminate|].
  destruct (merge_loop (ts first) _ (normalize processId threadId events)) as [st1|] eqn:Hloop;
    cbn [bind]; [|discriminate].
  intros Htail.
  assert (Hcached : stack_cached st1).
  { eapply (merge_loop_invariant (ts first) stack_cached); [|exact Hloop|].
    - intros ? ?. apply step_stack_cached.
    - apply normalize_invariants. }
  assert (Hbal : balanced st1).
  { eapply (merge_loop_invariant (ts first) balanced); [|exact Hloop|].
    - intros ? ?. apply step_balanced.
    - apply normalize_invariants. }
  destruct (close_leftover_spec totalWeight (stack st1) st1 Hcached eq_refl)
    as (st' & added & Hrun & Hs & _ & _ & _ & Hcalls & Hlen & Hleave & _).
  assert (st' = st) by congruence. subst st'.
  eexists (ts first), _, st1, st, added.
  split; [exact Hloop|]. split; [exact Hbal|]. split; [exact Hrun|].
  split; [exact Hcalls|]. split; [exact Hleave|]. split; [exact Hlen|].
  split; [exact Hs|]. split; [reflexivity|].
  cbn [build EventedProfile.calls]. rewrite Hcalls.
  rewrite !List.filter_app, !length_app. unfold balanced in Hbal.
  assert (Hl : length (List.filter is_leave added) = length added).
  { clear -Hleave. induction Hleave as [|c l Hc _ IH]; [reflexivity|].
    cbn. rewrite Hc. cbn. lia. }
  assert (He : length (List.filter is_enter added) = 0%nat).
  { clear -Hleave. induction Hleave as [|c l Hc _ IH]; [reflexivity|].
    cbn. destruct c; [discriminate|]. exact IH. }
  lia.
Qed.

(** Two begins, one end and one forced close. *)
Lemma enter_leave_balance_witness :
  let events := [sample (Some 1) (Some 1) 0 B "h" "{h}"; sample (Some 1) (Some 1) 1 B "g" "{g}";
                 sample (Some 1) (Some 1) 2 E "g" "{g}"] in
  let h := {| Frame.key := "{h}"; Frame.name := "h {h}" |} in
  let g := {| Frame.key := "{g}"; Frame.name := "g {g}" |} in
  let profile :=
    {| EventedProfile.name := "pid (1): tid (1)";
       EventedProfile.calls :=
         [enterFrame h 0; enterFrame g 1; leaveFrame g 2; leaveFrame h 3] |} in
  exists firstTimestamp budget merged final added,
    merge_loop firstTimestamp budget (normalize "1" "1" events) = Ok merged
    /\ length (List.filter is_enter (calls merged))
       = (length (List.filter is_leave (calls merged)) + length (stack merged))%nat
    /\ close_leftover call_count_weight (stack merged) merged = Ok final
    /\ calls final = calls merged ++ added
    /\ Forall (fun c => is_leave c = true) added
    /\ length added = length (stack merged)
    /\ stack final = []
    /\ profile = build final
    /\ length (List.filter is_leave (EventedProfile.calls profile))
       = length (List.filter is_enter (EventedProfile.calls profile)).
Proof.
  exact (enter_leave_balance call_count_weight "1" "1"
           [sample (Some 1) (Some 1) 0 B "h" "{h}"; sample (Some 1) (Some 1) 1 B "g" "{g}";
            sample (Some 1) (Some 1) 2 E "g" "{g}"]
           {| EventedProfile.name := "pid (1): tid (1)";
              EventedProfile.calls :=
                [enterFrame {| Frame.key := "{h}"; Frame.name := "h {h}" |} 0;
                 enterFrame {| Frame.key := "{g}"; Frame.name := "g {g}" |} 1;
                 leaveFrame {| Frame.key := "{g}"; Frame.name := "g {g}" |} 2;
                 leaveFrame {| Frame.key := "{h}"; Frame.name := "h {h}" |} 3] |}
           eq_refl).
Defined.

(** The frame a [leaveFrame] call names is the one cached under the end
    entry's key, which need not be the frame of the entry that is popped. *)
Example leave_names_the_end_entry :
  buildProfile call_count_weight "1" "1"
    [sample (Some 1) (Some 1) 0 B "h" "{h}"; sample (Some 1) (Some 1) 1 B "g" "{g}";
     sample (Some 1) (Some 1) 2 E "h" "{h}"]
  = let h := {| Frame.key := "{h}"; Frame.name := "h {h}" |} in
    let g := {| Frame.key := "{g}"; Frame.name := "g {g}" |} in
    Ok {| EventedProfile.name := "pid (1): tid (1)";
          EventedProfile.calls :=
            [enterFrame h 0; enterFrame g 1; leaveFrame h 2; leaveFrame h 3] |}.
Proof. reflexivity. Qed.

(** The budget of the loop is a device of this file: no run of
    [buildProfile] ends with its error. *)
Lemma buildProfile_budget
  (totalWeight : list Call -> Frame.t -> Z) (processId threadId : string)
  (events : list Event) :
  buildProfile totalWeight processId threadId events <> Throw LoopBudgetExhausted.
Proof.
  unfold buildProfile, run_timeline.
  destruct (beginQueue (normalize processId threadId events)) as [|first q] eqn:Hq;
    [discriminate|].
  pose proof (merge_loop_budget (ts first)
                (length (first :: q) + length (endQueue (normalize processId threadId events)))
                (normalize processId threadId events)) as Hbudget.
  rewrite Hq in Hbudget. specialize (Hbudget (le_n _)).
  destruct (merge_loop (ts first) _ (normalize processId threadId events)) as [st1|e] eqn:Hloop;
    cbn [bind].
  - assert (Hcached : stack_cached st1).
    { eapply (merge_loop_invariant (ts first) stack_cached); [|exact Hloop|].
      - intros ? ?. apply step_stack_cached.
      - apply normalize_invariants. }
    destruct (close_leftover_spec totalWeight (stack st1) st1 Hcached eq_refl)
      as (st' & added & -> & _).
    discriminate.
  - congruence.
Qed.

(** ** Records keyed by numbers *)

Lemma get_set_eq {V : Type} (k : Z) (v : V) (o : Js.Record_ V) :
  Js.get k (Js.set k v o) = Some v.
Proof.
  induction o as [|[k' v'] o IH]; cbn.
  - by rewrite Z.eqb_refl.
  - destruct (k =? k') eqn:Hk; cbn; rewrite ?Z.eqb_refl, ?Hk; done.
Qed.

Lemma get_set_ne {V : Type} (k k' : Z) (v : V) (o : Js.Record_ V) :
  k <> k' -> Js.get k' (Js.set k v o) = Js.get k' o.
Proof.
  intros Hne. induction o as [|[k0 v0] o IH]; cbn.
  - destruct (Z.eqb_spec k' k); [congruence|done].
  - destruct (Z.eqb_spec k k0) as [->|Hk]; cbn.
    + destruct (Z.eqb_spec k' k0); [congruence|done].
    + destruct (Z.eqb_spec k' k0); [done|exact IH].
Qed.

Lemma own_keys_set {V : Type} (k : Z) (v : V) (o : Js.Record_ V) :
  Js.own_keys (Js.set k v o) =
    match Js.get k o with
    | Some _ => Js.own_keys o
    | None => Js.own_keys o ++ [k]
    end.
Proof.
  unfold Js.own_keys. induction o as [|[k' v'] o IH]; cbn; [done|].
  destruct (Z.eqb_spec k k') as [->|Hk]; cbn; [done|].
  rewrite IH. by destruct (Js.get k o).
Qed.

Lemma elem_of_own_keys {V : Type} (k : Z) (o : Js.Record_ V) :
  k ∈ Js.own_keys o <-> is_Some (Js.get k o).
Proof.
  unfold Js.own_keys. induction o as [|[k' v'] o IH]; cbn.
  - split; [by intros ?%elem_of_nil|by intros [? ?]].
  - rewrite elem_of_cons, IH. destruct (Z.eqb_spec k k') as [->|Hk]; [|tauto].
    split; eauto.
Qed.

Lemma NoDup_own_keys_set {V : Type} (k : Z) (v : V) (o : Js.Record_ V) :
  NoDup (Js.own_keys o) -> NoDup (Js.own_keys (Js.set k v o)).
Proof.
  intros Hnd. rewrite own_keys_set. destruct (Js.get k o) eqn:Hk; [done|].
  apply NoDup_app. split; [done|]. split; [|apply NoDup_singleton].
  intros x Hx ->%list_elem_of_singleton.
  apply elem_of_own_keys in Hx. rewrite Hk in Hx. by destruct Hx.
Qed.

Lemma for_in_Permutation {V : Type} (o : Js.Record_ V) : Js.for_in o ≡ₚ Js.own_keys o.
Proof.
  unfold Js.for_in. rewrite merge_sort_Permutation. apply filter_app_complement.
Qed.

Lemma elem_of_for_in {V : Type} (k : Z) (o : Js.Record_ V) :
  k ∈ Js.for_in o <-> is_Some (Js.get k o).
Proof. rewrite for_in_Permutation. apply elem_of_own_keys. Qed.

Lemma StronglySorted_le_lt (l : list Z) :
  StronglySorted Z.le l -> NoDup l -> StronglySorted Z.lt l.
Proof.
  induction 1 as [|x l Hs IH Hall]; intros Hnd; [constructor|].
  apply NoDup_cons in Hnd as [Hx Hnd]. constructor; [auto|].
  apply Forall_forall. intros y Hy.
  assert (x <= y) by (rewrite Forall_forall in Hall; auto).
  assert (x <> y) by (intros ->; auto). lia.
Qed.

(** When every key is an array index, [for ... in] visits the keys in
    ascending order. *)
Lemma for_in_sorted {V : Type} (o : Js.Record_ V) :
  (forall k, k ∈ Js.own_keys o -> Js.isArrayIndex k = true) ->
  NoDup (Js.own_keys o) ->
  StronglySorted Z.lt (Js.for_in o).
Proof.
  intros Hidx Hnd. apply StronglySorted_le_lt.
  - unfold Js.for_in.
    assert (Hnone : filter (fun k => ~ Is_true (Js.isArrayIndex k)) (Js.own_keys o) = []).
    { generalize dependent (Js.own_keys o). clear. intros l Hidx _.
      induction l as [|k l IH]; [done|].
      rewrite filter_cons_False.
      - apply IH. intros k' Hk'. apply Hidx. by right.
      - intros Hk. apply Hk. rewrite Hidx; [done|by left]. }
    rewrite Hnone, app_nil_r.
    apply (StronglySorted_merge_sort Z.le).
  - by rewrite for_in_Permutation.
Qed.

Lemma split_event_unroutable (collections : Collections) (e : Event) :
  pid e = None \/ tid e = None -> split_event collections e = collections.
Proof.
  unfold split_event. intros [-> | ->]; [done|]. by destruct (pid e).
Qed.

Lemma split_snoc (trace : list Event) (e : Event) :
  splitEventsByProcessAndTraceId (trace ++ [e]) =
    split_event (splitEventsByProcessAndTraceId trace) e.
Proof. unfold splitEventsByProcessAndTraceId. apply fold_left_app. Qed.

(** What [split_event] does for an event with a numeric [pid] and [tid]. *)
Lemma split_event_routable (collections : Collections) (e : Event) (p t : Z) :
  pid e = Some p -> tid e = Some t ->
  let threads := default [] (Js.get p collections) in
  exists collections1 threads1,
    split_event collections e =
      Js.set p (Js.set t (default [] (Js.get t threads) ++ [e]) threads1) collections1
    /\ (forall p', p <> p' -> Js.get p' collections1 = Js.get p' collections)
    /\ (forall t', t <> t' -> Js.get t' threads1 = Js.get t' threads)
    /\ (NoDup (Js.own_keys collections) -> NoDup (Js.own_keys collections1))
    /\ (NoDup (Js.own_keys threads) -> NoDup (Js.own_keys threads1)).
Proof.
  intros Hp Ht threads. subst threads. unfold split_event. rewrite Hp, Ht.
  destruct (Js.get p collections) as [threads|] eqn:Hget.
  - rewrite Hget. cbn [from_option id].
    destruct (Js.get t threads) as [events|] eqn:Hevents.
    + rewrite Hevents. cbn [from_option id]. exists collections, threads. auto.
    + rewrite get_set_eq. cbn [from_option id].
      exists collections, (Js.set t [] threads).
      split; [done|]. split; [done|]. split; [intros t' Hne; by apply get_set_ne|].
      split; [done|]. apply NoDup_own_keys_set.
  - rewrite get_set_eq. cbn [from_option id Js.get].
    rewrite get_set_eq. cbn [from_option id].
    exists (Js.set p [] collections), (Js.set t [] []).
    split; [done|]. split; [intros p' Hne; by apply get_set_ne|].
    split; [intros t' Hne; by apply (get_set_ne t t' [] [])|].
    split; [apply NoDup_own_keys_set|]. intros _. apply NoDup_singleton.
Qed.

Lemma lookup2_split_event (p t : Z) (collections : Collections) (e : Event) :
  lookup2 p t (split_event collections e) =
    if routed p t e then Some (default [] (lookup2 p t collections) ++ [e])
    else lookup2 p t collections.
Proof.
  unfold routed.
  destruct (pid e) as [p'|] eqn:Hp; [destruct (tid e) as [t'|] eqn:Ht|].
  - destruct (split_event_routable collections e p' t' Hp Ht)
      as (c1 & th1 & -> & Hc1 & Hth1 & _ & _).
    unfold lookup2. destruct (decide (p' = p)) as [->|Hne].
    + rewrite get_set_eq. destruct (decide (t' = t)) as [->|Hnet].
      * rewrite get_set_eq, bool_decide_eq_true_2 by done.
        by destruct (Js.get p collections).
      * rewrite get_set_ne, Hth1 by done.
        rewrite bool_decide_eq_false_2 by (intros [_ [= ?]]; done).
        by destruct (Js.get p collections).
    + rewrite get_set_ne, Hc1 by done.
      rewrite bool_decide_eq_false_2 by (intros [[= ?] _]; done). done.
  - rewrite split_event_unroutable by auto.
    rewrite bool_decide_eq_false_2 by (intros [_ ?]; done). done.
  - rewrite split_event_unroutable by auto.
    rewrite bool_decide_eq_false_2 by (intros [? _]; done). done.
Qed.

(** The bucket of [(p, t)] holds the events of the trace with that [pid]
    and [tid], in the order of the trace; there is no empty bucket. *)
Lemma lookup2_split (trace : list Event) (p t : Z) :
  lookup2 p t (splitEventsByProcessAndTraceId trace) =
    match List.filter (routed p t) trace with
    | [] => None
    | events => Some events
    end.
Proof.
  induction trace as [|e trace IH] using rev_ind; [done|].
  rewrite split_snoc, lookup2_split_event, IH, List.filter_app. cbn [List.filter].
  destruct (routed p t e).
  - destruct (List.filter (routed p t) trace); done.
  - by rewrite app_nil_r.
Qed.

Lemma well_formed_split_event (collections : Collections) (e : Event) :
  well_formed collections -> well_formed (split_event collections e).
Proof.
  intros [Hnd Hin].
  destruct (pid e) as [p|] eqn:Hp; [destruct (tid e) as [t|] eqn:Ht|];
    [|by rewrite split_event_unroutable by auto..].
  destruct (split_event_routable collections e p t Hp Ht)
    as (c1 & th1 & -> & Hc1 & Hth1 & Hnd1 & Hndth).
  split; [by apply NoDup_own_keys_set, Hnd1|].
  intros p' threads. destruct (decide (p = p')) as [<-|Hne].
  - rewrite get_set_eq. intros [= <-]. split.
    + apply NoDup_own_keys_set, Hndth.
      destruct (Js.get p collections) as [threads|] eqn:Hget; cbn [from_option id].
      * by apply (Hin p).
      * constructor.
    + exists t. rewrite get_set_eq. eauto.
  - rewrite get_set_ne, Hc1 by done. apply Hin.
Qed.

Lemma well_formed_split (trace : list Event) :
  well_formed (splitEventsByProcessAndTraceId trace).
Proof.
  induction trace as [|e trace IH] using rev_ind.
  - split; [constructor|]. intros p threads. discriminate.
  - rewrite split_snoc. by apply well_formed_split_event.
Qed.

(** C8: an event whose [pid] or [tid] is not a number is in no bucket, and
    the partition, the profile group and the outcome of the import of a
    trace are the same with the event at any position in the trace as
    without it: the event raises no error and changes no profile. *)
Theorem unroutable_event_has_no_influence
  (totalWeight : list Call -> Frame.t -> Z) (before after : list Event) (e : Event) :
  pid e = None \/ tid e = None ->
  splitEventsByProcessAndTraceId (before ++ e :: after)
    = splitEventsByProcessAndTraceId (before ++ after)
  /\ parseChromeTraceArrayFormat totalWeight (before ++ e :: after)
     = parseChromeTraceArrayFormat totalWeight (before ++ after)
  /\ importChromeTrace totalWeight (Js.Array (before ++ e :: after))
     = importChromeTrace totalWeight (Js.Array (before ++ after))
  /\ forall p t events,
       lookup2 p t (splitEventsByProcessAndTraceId (before ++ e :: after)) = Some events ->
       e ∉ events.
Proof.
  intros He.
  assert (Hsplit : splitEventsByProcessAndTraceId (before ++ e :: after)
                   = splitEventsByProcessAndTraceId (before ++ after)).
  { unfold splitEventsByProcessAndTraceId. rewrite !fold_left_app. cbn [fold_left].
    by rewrite split_event_unroutable. }
  split; [exact Hsplit|].
  assert (Hparse : parseChromeTraceArrayFormat totalWeight (before ++ e :: after)
                   = parseChromeTraceArrayFormat totalWeight (before ++ after)).
  { unfold parseChromeTraceArrayFormat. by rewrite Hsplit. }
  split; [exact Hparse|]. split; [exact Hparse|].
  intros p t events. rewrite lookup2_split.
  destruct (List.filter (routed p t) (before ++ e :: after)) as [|e0 l] eqn:Hf; [done|].
  intros [= <-] Hin. rewrite <- Hf in Hin.
  apply list_elem_of_In, filter_In in Hin as [_ Hr].
  unfold routed in Hr. apply bool_decide_eq_true in Hr as [Hp Ht].
  destruct He; congruence.
Qed.

(** An event without [tid] between two events of the bucket (1, 1). *)
Lemma unroutable_event_has_no_influence_witness :
  let b := sample (Some 1) (Some 1) 0 B "f" "{}" in
  let x := sample (Some 1) (Some 1) 3 E "f" "{}" in
  let e := sample (Some 1) None 1 B "g" "{1}" in
  splitEventsByProcessAndTraceId ([b] ++ e :: [x]) = splitEventsByProcessAndTraceId ([b] ++ [x])
  /\ parseChromeTraceArrayFormat call_count_weight ([b] ++ e :: [x])
     = parseChromeTraceArrayFormat call_count_weight ([b] ++ [x])
  /\ importChromeTrace call_count_weight (Js.Array ([b] ++ e :: [x]))
     = importChromeTrace call_count_weight (Js.Array ([b] ++ [x]))
  /\ forall p t events,
       lookup2 p t (splitEventsByProcessAndTraceId ([b] ++ e :: [x])) = Some events ->
       e ∉ events.
Proof.
  exact (unroutable_event_has_no_influence call_count_weight
           [sample (Some 1) (Some 1) 0 B "f" "{}"] [sample (Some 1) (Some 1) 3 E "f" "{}"]
           (sample (Some 1) None 1 B "g" "{1}") (or_intror eq_refl)).
Defined.

(** ** The profile group *)

Lemma in_buckets (collections : Collections) (p t : Z) (events : list Event) :
  In (p, t, events) (buckets collections) <-> lookup2 p t collections = Some events.
Proof.
  unfold buckets, lookup2. rewrite in_flat_map. split.
  - intros (p0 & Hp0 & Hin). apply in_map_iff in Hin as (t0 & Heq & Ht0).
    injection Heq as -> -> <-.
    rewrite <- list_elem_of_In in Hp0. apply elem_of_for_in in Hp0 as [threads Hthreads].
    rewrite Hthreads in *. cbn [from_option id] in *.
    rewrite <- list_elem_of_In in Ht0. apply elem_of_for_in in Ht0 as [events Hevents].
    by rewrite Hevents.
  - destruct (Js.get p collections) as [threads|] eqn:Hthreads; [|done].
    intros Hevents. exists p. split.
    + rewrite <- list_elem_of_In. apply elem_of_for_in. by rewrite Hthreads.
    + rewrite Hthreads. cbn [from_option id]. apply in_map_iff. exists t.
      rewrite Hevents. split; [done|].
      rewrite <- list_elem_of_In. apply elem_of_for_in. by rewrite Hevents.
Qed.

Lemma bucket_keys (collections : Collections) :
  map fst (buckets collections) =
    flat_map (fun p => map (pair p) (Js.for_in (default [] (Js.get p collections))))
      (Js.for_in collections).
Proof.
  unfold buckets. induction (Js.for_in collections) as [|p l IH]; [done|].
  cbn [flat_map]. rewrite map_app, IH, map_map. done.
Qed.

Lemma NoDup_pairs (ps : list Z) (f : Z -> list Z) :
  NoDup ps -> (forall p, p ∈ ps -> NoDup (f p)) ->
  NoDup (flat_map (fun p => map (pair p) (f p)) ps).
Proof.
  induction 1 as [|p ps Hp Hnd IH]; intros Hf; [constructor|].
  cbn [flat_map]. apply NoDup_app. split; [|split].
  - apply (NoDup_fmap_2 (pair p)). apply Hf. by left.
  - intros [p1 t1] Hin1 Hin2.
    rewrite list_elem_of_In in Hin1. apply in_map_iff in Hin1 as (? & [= <- <-] & _).
    rewrite list_elem_of_In in Hin2. apply in_flat_map in Hin2 as (p2 & Hp2 & Hin2).
    apply in_map_iff in Hin2 as (? & [= -> _] & _).
    apply Hp. by apply list_elem_of_In.
  - apply IH. intros p' Hp'. apply Hf. by right.
Qed.

Lemma sorted_pairs (ps : list Z) (f : Z -> list Z) :
  StronglySorted Z.lt ps -> (forall p, p ∈ ps -> StronglySorted Z.lt (f p)) ->
  StronglySorted lex_lt (flat_map (fun p => map (pair p) (f p)) ps).
Proof.
  induction 1 as [|p ps Hs IH Hall]; intros Hf; [constructor|].
  cbn [flat_map]. apply StronglySorted_app_2.
  - intros [p1 t1] [p2 t2] Hin1 Hin2.
    rewrite list_elem_of_In in Hin1. apply in_map_iff in Hin1 as (? & [= <- <-] & _).
    rewrite list_elem_of_In in Hin2. apply in_flat_map in Hin2 as (p2' & Hp2 & Hin2).
    apply in_map_iff in Hin2 as (? & [= -> _] & _).
    left. cbn. rewrite Forall_forall in Hall. apply Hall. by apply list_elem_of_In.
  - assert (Hfp : StronglySorted Z.lt (f p)) by (apply Hf; by left).
    clear -Hfp. induction Hfp as [|t ts Hs IH Hall]; [constructor|].
    cbn [map]. constructor; [exact IH|].
    apply Forall_forall. intros [p' t'] Hin.
    rewrite list_elem_of_In in Hin. apply in_map_iff in Hin as (? & [= <- <-] & Hin).
    right. cbn. split; [done|]. rewrite Forall_forall in Hall.
    apply Hall. by apply list_elem_of_In.
  - apply IH. intros p' Hp'. apply Hf. by right.
Qed.

Lemma build_all_Forall2
  (totalWeight : list Call -> Frame.t -> Z) (bs : list (Z * Z * list Event))
  (profiles : list EventedProfile.t) :
  build_all totalWeight bs = Ok profiles ->
  Forall2 (fun b profile =>
             buildProfile totalWeight (Js.to_string (fst (fst b))) (Js.to_string (snd (fst b)))
               (snd b) = Ok profile)
    bs profiles.
Proof.
  revert profiles. induction bs as [|[[p t] events] bs IH]; intros profiles; cbn [build_all].
  - intros [= <-]. constructor.
  - destruct (buildProfile totalWeight _ _ events) as [profile|] eqn:Hb; cbn [bind]; [|done].
    destruct (build_all totalWeight bs) as [rest|]; cbn [bind]; [|done].
    intros [= <-]. constructor; [exact Hb|]. by apply IH.
Qed.

Lemma lookup2_split_Some (trace : list Event) (p t : Z) :
  is_Some (lookup2 p t (splitEventsByProcessAndTraceId trace))
  <-> exists e, e ∈ trace /\ pid e = Some p /\ tid e = Some t.
Proof.
  rewrite lookup2_split. split.
  - destruct (List.filter (routed p t) trace) as [|e l] eqn:Hf; [by intros [? ?]|].
    intros _. exists e.
    assert (Hin : In e (List.filter (routed p t) trace)) by (rewrite Hf; by left).
    apply filter_In in Hin as [Hin Hr]. apply bool_decide_eq_true in Hr.
    split; [by apply list_elem_of_In|done].
  - intros (e & Hin & Hp & Ht).
    assert (Hf : In e (List.filter (routed p t) trace)).
    { apply filter_In. split; [by apply list_elem_of_In|]. by apply bool_decide_eq_true. }
    destruct (List.filter (routed p t) trace); [done|eauto].
Qed.

(** C6, as stated, fails: the partitioner meets pid 2 before pid 1, and the
    profile of pid 1 comes first in the group. *)
Lemma profiles_not_in_discovery_order :
  let input := [sample (Some 2) (Some 1) 0 B "f" "{}"; sample (Some 1) (Some 1) 0 B "f" "{}"] in
  discovery_order (splitEventsByProcessAndTraceId input) = [(2, 1); (1, 1)]
  /\ match parseChromeTraceArrayFormat call_count_weight input with
     | Ok group => map EventedProfile.name (ProfileGroup.profiles group)
     | Throw _ => []
     end = ["pid (1): tid (1)"; "pid (2): tid (1)"].
Proof. split; reflexivity. Qed.

(** C6, amended: a successful [parseChromeTraceArrayFormat] returns a group
    named "chrometrace", with an empty [traceID] and [activeProfileIndex] 0,
    whose profiles are, one for one, those of the buckets in the order of the
    two nested [for ... in] loops; there is exactly one bucket for each
    [(pid, tid)] some event of the input has; and when these ids are array
    indices (integers from 0 to 2^32 - 2) the buckets are in ascending order
    of pid and, within a pid, of tid. *)
Theorem parse_profile_group
  (totalWeight : list Call -> Frame.t -> Z) (input : list Event) (group : ProfileGroup.t) :
  parseChromeTraceArrayFormat totalWeight input = Ok group ->
  let bs := buckets (splitEventsByProcessAndTraceId input) in
  ProfileGroup.name group = "chrometrace"
  /\ ProfileGroup.traceID group = EmptyString
  /\ ProfileGroup.activeProfileIndex group = 0
  /\ Forall2 (fun b profile =>
                buildProfile totalWeight (Js.to_string (fst (fst b)))
                  (Js.to_string (snd (fst b))) (snd b) = Ok profile)
       bs (ProfileGroup.profiles group)
  /\ NoDup (map fst bs)
  /\ (forall p t, (p, t) ∈ map fst bs
                  <-> exists e, e ∈ input /\ pid e = Some p /\ tid e = Some t)
  /\ (forall p t events, (p, t, events) ∈ bs -> events = List.filter (routed p t) input)
  /\ ((forall e p t, e ∈ input -> pid e = Some p -> tid e = Some t ->
                     Js.isArrayIndex p = true /\ Js.isArrayIndex t = true) ->
      StronglySorted lex_lt (map fst bs)).
Proof.
  unfold parseChromeTraceArrayFormat.
  destruct (build_all totalWeight _) as [profiles|] eqn:Hall; cbn [bind]; [|done].
  intros [= <-].
  cbn [ProfileGroup.name ProfileGroup.traceID ProfileGroup.activeProfileIndex
       ProfileGroup.profiles].
  set (c := splitEventsByProcessAndTraceId input) in *.
  destruct (well_formed_split input) as [Hnd Hwf]. fold c in Hnd, Hwf.
  assert (Hkeys : forall p t, (p, t) ∈ map fst (buckets c) <-> is_Some (lookup2 p t c)).
  { intros p t. rewrite list_elem_of_In, in_map_iff. split.
    - intros ([[p' t'] events] & [= -> ->] & Hin). apply in_buckets in Hin. eauto.
    - intros [events Hevents]. exists (p, t, events). split; [done|]. by apply in_buckets. }
  split; [done|]. split; [done|]. split; [done|].
  split; [by apply build_all_Forall2|].
  split; [|split; [|split]].
  - rewrite bucket_keys. apply NoDup_pairs.
    + by rewrite for_in_Permutation.
    + intros p [threads Hthreads]%elem_of_for_in. rewrite Hthreads. cbn [from_option id].
      rewrite for_in_Permutation. by apply (Hwf p).
  - intros p t. rewrite Hkeys. apply lookup2_split_Some.
  - intros p t events Hin. rewrite list_elem_of_In in Hin. apply in_buckets in Hin. subst c.
    rewrite lookup2_split in Hin.
    destruct (List.filter (routed p t) input); [done|]. by injection Hin.
  - intros Hidx. rewrite bucket_keys. apply sorted_pairs.
    + apply for_in_sorted; [|done].
      intros p [threads Hthreads]%elem_of_own_keys.
      destruct (Hwf p threads Hthreads) as [_ [t Ht]].
      assert (Hsome : is_Some (lookup2 p t c)) by (unfold lookup2; by rewrite Hthreads).
      apply lookup2_split_Some in Hsome as (e & Hin & Hp & Ht').
      by destruct (Hidx e p t Hin Hp Ht').
    + intros p [threads Hthreads]%elem_of_for_in. rewrite Hthreads. cbn [from_option id].
      apply for_in_sorted; [|by apply (Hwf p)].
      intros t Ht%elem_of_own_keys.
      assert (Hsome : is_Some (lookup2 p t c)) by (unfold lookup2; by rewrite Hthreads).
      apply lookup2_split_Some in Hsome as (e & Hin & Hp & Ht').
      by destruct (Hidx e p t Hin Hp Ht').
Qed.

(** Three buckets, met in the order (2, 1), (1, 7), (1, 3). *)
Lemma parse_profile_group_witness :
  let input := [sample (Some 2) (Some 1) 0 B "f" "{}"; sample (Some 1) (Some 7) 0 B "f" "{}";
                sample (Some 1) (Some 3) 0 B "f" "{}"] in
  let f := {| Frame.key := "{}"; Frame.name := "f {}" |} in
  let closed := [enterFrame f 0; leaveFrame f 1] in
  let group :=
    {| ProfileGroup.name := "chrometrace"; ProfileGroup.traceID := EmptyString;
       ProfileGroup.activeProfileIndex := 0;
       ProfileGroup.profiles :=
         [{| EventedProfile.name := "pid (1): tid (3)"; EventedProfile.calls := closed |};
          {| EventedProfile.name := "pid (1): tid (7)"; EventedProfile.calls := closed |};
          {| EventedProfile.name := "pid (2): tid (1)"; EventedProfile.calls := closed |}] |} in
  let bs := buckets (splitEventsByProcessAndTraceId input) in
  ProfileGroup.name group = "chrometrace"
  /\ ProfileGroup.traceID group = EmptyString
  /\ ProfileGroup.activeProfileIndex group = 0
  /\ Forall2 (fun b profile =>
                buildProfile call_count_weight (Js.to_string (fst (fst b)))
                  (Js.to_string (snd (fst b))) (snd b) = Ok profile)
       bs (ProfileGroup.profiles group)
  /\ NoDup (map fst bs)
  /\ (forall p t, (p, t) ∈ map fst bs
                  <-> exists e, e ∈ input /\ pid e = Some p /\ tid e = Some t)
  /\ (forall p t events, (p, t, events) ∈ bs -> events = List.filter (routed p t) input)
  /\ ((forall e p t, e ∈ input -> pid e = Some p -> tid e = Some t ->
                     Js.isArrayIndex p = true /\ Js.isArrayIndex t = true) ->
      StronglySorted lex_lt (map fst bs)).
Proof.
  exact (parse_profile_group call_count_weight
           [sample (Some 2) (Some 1) 0 B "f" "{}"; sample (Some 1) (Some 7) 0 B "f" "{}";
            sample (Some 1) (Some 3) 0 B "f" "{}"]
           {| ProfileGroup.name := "chrometrace"; ProfileGroup.traceID := EmptyString;
              ProfileGroup.activeProfileIndex := 0;
              ProfileGroup.profiles :=
                [{| EventedProfile.name := "pid (1): tid (3)";
                    EventedProfile.calls :=
                      [enterFrame {| Frame.key := "{}"; Frame.name := "f {}" |} 0;
                       leaveFrame {| Frame.key := "{}"; Frame.name := "f {}" |} 1] |};
                 {| EventedProfile.name := "pid (1): tid (7)";
                    EventedProfile.calls :=
                      [enterFrame {| Frame.key := "{}"; Frame.name := "f {}" |} 0;
                       leaveFrame {| Frame.key := "{}"; Frame.name := "f {}" |} 1] |};
                 {| EventedProfile.name := "pid (2): tid (1)";
                    EventedProfile.calls :=
                      [enterFrame {| Frame.key := "{}"; Frame.name := "f {}" |} 0;
                       leaveFrame {| Frame.key := "{}"; Frame.name := "f {}" |} 1] |}] |}
           eq_refl).
Defined.

Example bucket_order :
  map fst (buckets (splitEventsByProcessAndTraceId
                      [sample (Some 2) (Some 1) 0 B "f" "{}";
                       sample (Some 1) (Some 7) 0 B "f" "{}";
                       sample (Some 1) (Some 3) 0 B "f" "{}"]))
  = [(1, 3); (1, 7); (2, 1)].
Proof. vm_compute. reflexivity. Qed.

(** * Further properties of the importer *)

(** ** The comparator *)

(** X1: [chronologicalSort] is a consistent comparator: swapping the
    arguments negates the result, the result is negative exactly when the
    first event is earlier and zero exactly when the timestamps are equal,
    and "not after" is transitive. *)
Theorem chronologicalSort_consistent (a b c : Event) :
  chronologicalSort a b = - chronologicalSort b a
  /\ (chronologicalSort a b < 0 <-> ts a < ts b)
  /\ (chronologicalSort a b = 0 <-> ts a = ts b)
  /\ (chronologicalSort a b <= 0 -> chronologicalSort b c <= 0 -> chronologicalSort a c <= 0).
Proof.
  unfold chronologicalSort.
  destruct (Z.ltb_spec (ts a) (ts b)), (Z.gtb_spec (ts a) (ts b)),
    (Z.ltb_spec (ts b) (ts a)), (Z.gtb_spec (ts b) (ts a)),
    (Z.ltb_spec (ts b) (ts c)), (Z.gtb_spec (ts b) (ts c)),
    (Z.ltb_spec (ts a) (ts c)), (Z.gtb_spec (ts a) (ts c)); lia.
Qed.

(** ** The format test and the import *)

(** X2: [isChromeTraceFormat] accepts every array; when it answers false the
    import fails with the format error; and when the import returns a group
    the input is an array that [isChromeTraceFormat] accepts. *)
Theorem isChromeTraceFormat_guards_import
  (totalWeight : list Call -> Frame.t -> Z) (input : Js.Value) :
  (forall events, input = Js.Array events -> isChromeTraceFormat input = Ok true)
  /\ (isChromeTraceFormat input = Ok false ->
      importChromeTrace totalWeight input = Throw FailedToParse)
  /\ (forall group,
        importChromeTrace totalWeight input = Ok group ->
        isChromeTraceFormat input = Ok true /\ exists events, input = Js.Array events).
Proof.
  split; [|split].
  - intros events ->. reflexivity.
  - destruct input; cbn; try discriminate; try reflexivity.
    unfold importChromeTrace, isChromeTraceObjectFormat. cbn.
    intros [= ->]. reflexivity.
  - intros group. destruct input; cbn; try discriminate.
    + intros _. eauto.
    + unfold importChromeTrace, isChromeTraceObjectFormat. cbn.
      destruct (bool_decide ("traceEvents" ∈ properties)); discriminate.
Qed.

Lemma isChromeTraceFormat_guards_import_witness :
  importChromeTrace call_count_weight (Js.Number 3) = Throw FailedToParse
  /\ isChromeTraceFormat (Js.Array [sample (Some 1) (Some 1) 0 B "f" "{}"]) = Ok true.
Proof.
  split.
  - exact (proj1 (proj2 (isChromeTraceFormat_guards_import call_count_weight (Js.Number 3)))
             eq_refl).
  - exact (proj1 (isChromeTraceFormat_guards_import call_count_weight
                    (Js.Array [sample (Some 1) (Some 1) 0 B "f" "{}"]))
             [sample (Some 1) (Some 1) 0 B "f" "{}"] eq_refl).
Defined.

(** ** The partition *)

(** X3: the bucket of a pid and tid holds exactly the events of the trace
    with that pid and tid, in the order of the trace, and the partitioner
    creates no empty bucket. *)
Theorem bucket_holds_its_events (trace : list Event) (p t : Z) (events : list Event) :
  lookup2 p t (splitEventsByProcessAndTraceId trace) = Some events
  <-> events = List.filter (routed p t) trace /\ events <> [].
Proof.
  rewrite lookup2_split.
  destruct (List.filter (routed p t) trace) as [|e l]; split.
  - discriminate.
  - intros [-> Hne]. done.
  - intros [= <-]. done.
  - intros [-> _]. reflexivity.
Qed.

(** X4: a trace in which no event has both a numeric pid and a numeric tid,
    the empty trace included, is imported as a group without profiles. *)
Theorem trace_without_buckets
  (totalWeight : list Call -> Frame.t -> Z) (input : list Event) :
  (forall e, e ∈ input -> pid e = None \/ tid e = None) ->
  splitEventsByProcessAndTraceId input = []
  /\ importChromeTrace totalWeight (Js.Array input)
     = Ok {| ProfileGroup.name := "chrometrace"; ProfileGroup.traceID := EmptyString;
             ProfileGroup.activeProfileIndex := 0; ProfileGroup.profiles := [] |}.
Proof.
  intros Hall.
  assert (Hsplit : splitEventsByProcessAndTraceId input = []).
  { induction input as [|e input IH] using rev_ind; [reflexivity|].
    rewrite split_snoc, IH.
    - apply split_event_unroutable, Hall, elem_of_app. right. by left.
    - intros e' He'. apply Hall, elem_of_app. by left. }
  split; [exact Hsplit|].
  cbn. unfold parseChromeTraceArrayFormat. rewrite Hsplit. reflexivity.
Qed.

Lemma trace_without_buckets_witness :
  splitEventsByProcessAndTraceId [sample None (Some 1) 0 B "f" "{}"] = []
  /\ importChromeTrace call_count_weight (Js.Array [sample None (Some 1) 0 B "f" "{}"])
     = Ok {| ProfileGroup.name := "chrometrace"; ProfileGroup.traceID := EmptyString;
             ProfileGroup.activeProfileIndex := 0; ProfileGroup.profiles := [] |}.
Proof.
  apply (trace_without_buckets call_count_weight [sample None (Some 1) 0 B "f" "{}"]).
  intros e He. apply list_elem_of_singleton in He. subst e. left. reflexivity.
Defined.

(** ** Failure of a bucket *)

Lemma build_all_Throw
  (totalWeight : list Call -> Frame.t -> Z) (bs : list (Z * Z * list Event)) (e : Error) :
  build_all totalWeight bs = Throw e
  <-> exists finished b rest,
        bs = finished ++ b :: rest
        /\ Forall (fun b' => exists profile,
                     buildProfile totalWeight (Js.to_string (fst (fst b')))
                       (Js.to_string (snd (fst b'))) (snd b') = Ok profile) finished
        /\ buildProfile totalWeight (Js.to_string (fst (fst b))) (Js.to_string (snd (fst b)))
             (snd b) = Throw e.
Proof.
  induction bs as [|[[p t] events] bs IH]; cbn [build_all].
  - split; [discriminate|]. intros (finished & b & rest & Heq & _).
    by destruct finished.
  - destruct (buildProfile totalWeight (Js.to_string p) (Js.to_string t) events)
      as [profile|e'] eqn:Hb; cbn [bind].
    + destruct (build_all totalWeight bs) as [profiles|e'] eqn:Hall; cbn [bind].
      * split; [discriminate|]. intros (finished & b & rest & Heq & Hdone & Hthrow).
        destruct finished as [|b0 finished]; cbn in Heq; injection Heq as <- ->.
        -- cbn in Hthrow. congruence.
        -- apply Forall_cons in Hdone as [_ Hdone].
           assert (Ok profiles = @Throw (list EventedProfile.t) e) as Habs; [|discriminate].
           apply IH. eauto 8.
      * split.
        -- intros [= ->]. destruct (proj1 IH eq_refl) as (finished & b & rest & -> & Hdone & Hthrow).
           exists ((p, t, events) :: finished), b, rest. split; [done|]. split; [|done].
           constructor; [|done]. cbn. eauto.
        -- intros (finished & b & rest & Heq & Hdone & Hthrow).
           destruct finished as [|b0 finished]; cbn in Heq; injection Heq as <- ->.
           ++ cbn in Hthrow. congruence.
           ++ apply Forall_cons in Hdone as [_ Hdone].
              assert (Throw e' = @Throw (list EventedProfile.t) e) as Habs; [|congruence].
              apply IH. eauto 8.
    + split.
      * intros [= ->]. exists [], (p, t, events), bs. split; [done|]. split; [constructor|done].
      * intros (finished & b & rest & Heq & Hdone & Hthrow).
        destruct finished as [|b0 finished]; cbn in Heq; injection Heq as <- ->.
        -- cbn in Hthrow. congruence.
        -- apply Forall_cons in Hdone as [[profile Hp] _]. cbn in Hp. congruence.
Qed.

Lemma parse_Throw
  (totalWeight : list Call -> Frame.t -> Z) (input : list Event) (e : Error) :
  parseChromeTraceArrayFormat totalWeight input = Throw e
  <-> build_all totalWeight (buckets (splitEventsByProcessAndTraceId input)) = Throw e.
Proof.
  unfold parseChromeTraceArrayFormat.
  destruct (build_all totalWeight _) as [profiles|e']; cbn [bind]; split; congruence.
Qed.

(** X5: [parseChromeTraceArrayFormat] fails exactly when some bucket fails,
    and then with the error of the first failing bucket in the order of the
    [for ... in] loops: the buckets before it were built, and the ones after
    it are not looked at. *)
Theorem parse_fails_with_first_failing_bucket
  (totalWeight : list Call -> Frame.t -> Z) (input : list Event) (e : Error) :
  parseChromeTraceArrayFormat totalWeight input = Throw e
  <-> exists finished b rest,
        buckets (splitEventsByProcessAndTraceId input) = finished ++ b :: rest
        /\ Forall (fun b' => exists profile,
                     buildProfile totalWeight (Js.to_string (fst (fst b')))
                       (Js.to_string (snd (fst b'))) (snd b') = Ok profile) finished
        /\ buildProfile totalWeight (Js.to_string (fst (fst b))) (Js.to_string (snd (fst b)))
             (snd b) = Throw e.
Proof.
  rewrite <- build_all_Throw. apply parse_Throw.
Qed.

(** ** One iteration, in full *)

Lemma find_sibling_spec (topKey : string) (ts0 : Z) (rest : list Event) (i0 i : nat) (e : Event) :
  find_sibling topKey ts0 rest i0 = Some (i, e) ->
  exists j, i = (i0 + j)%nat /\ rest !! j = Some e /\ ts e <= ts0 /\ event_key e = topKey.
Proof.
  revert i0. induction rest as [|e0 rest IH]; intros i0; cbn [find_sibling]; [discriminate|].
  destruct (Z.gtb_spec (ts e0) ts0) as [|Hle]; [discriminate|].
  fold (event_key e0). destruct (String.eqb_spec topKey (event_key e0)) as [Hk|Hk].
  - intros [= <- <-]. exists 0%nat. rewrite Nat.add_0_r. auto.
  - intros (j & -> & Hj & Hts & Hkey)%IH. exists (S j). split; [lia|]. auto.
Qed.

Lemma getNextQueue_QB (bq eq : list Event) :
  getNextQueue bq eq = Ok QB ->
  exists item q, bq = item :: q /\ forall e, head eq = Some e -> ts item <= ts e.
Proof.
  unfold getNextQueue. destruct bq as [|nb bq], eq as [|ne eq]; cbn; try discriminate.
  - intros _. exists nb, bq. split; [done|]. discriminate.
  - destruct (Z.ltb_spec (ts nb) (ts ne)).
    + intros _. exists nb, bq. split; [done|]. intros e [= <-]. lia.
    + destruct (Z.ltb_spec (ts ne) (ts nb)); [discriminate|].
      intros _. exists nb, bq. split; [done|]. intros e [= <-]. lia.
Qed.

Lemma getNextQueue_QE (bq eq : list Event) :
  getNextQueue bq eq = Ok QE ->
  exists item q, eq = item :: q /\ forall e, head bq = Some e -> ts item < ts e.
Proof.
  unfold getNextQueue. destruct bq as [|nb bq], eq as [|ne eq]; cbn; try discriminate.
  - intros _. exists ne, eq. split; [done|]. discriminate.
  - destruct (Z.ltb_spec (ts nb) (ts ne)); [discriminate|].
    destruct (Z.ltb_spec (ts ne) (ts nb)); [|discriminate].
    intros _. exists ne, eq. split; [done|]. intros e [= <-]. lia.
Qed.

Lemma begin_step_full (firstTimestamp : Z) (st st' : Locals) :
  begin_step firstTimestamp st = Ok st' ->
  exists item q frame,
    beginQueue st = item :: q
    /\ beginQueue st' = q
    /\ endQueue st' = endQueue st
    /\ stack st' = item :: stack st
    /\ calls st' = calls st ++ [enterFrame frame (ts item - firstTimestamp)]
    /\ processName st' = processName st
    /\ threadName st' = threadName st
    /\ ((frameCache st !! event_key item = Some frame /\ frameCache st' = frameCache st)
        \/ (frameCache st !! event_key item = None
            /\ frame = Frame.new (createFrameInfoFromEvent item)
            /\ frameCache st' = <[event_key item := frame]> (frameCache st))).
Proof.
  unfold begin_step. destruct (beginQueue st) as [|item q] eqn:Hq; [discriminate|].
  locals. fold (event_key item).
  destruct (frameCache st !! event_key item) as [frame|] eqn:Hc; locals.
  - rewrite Hc. intros [= <-]. exists item, q, frame. cbn. repeat split; auto.
  - rewrite lookup_insert_eq. intros [= <-].
    exists item, q, (Frame.new (createFrameInfoFromEvent item)). cbn.
    repeat split; auto.
Qed.

Lemma end_step_full (firstTimestamp : Z) (st st' : Locals) :
  end_step firstTimestamp st = Ok st' ->
  exists item q top rest frame key,
    endQueue st = item :: q
    /\ stack st = top :: rest
    /\ stack st' = rest
    /\ calls st' = calls st ++ [leaveFrame frame (ts item - firstTimestamp)]
    /\ frameCache st' = frameCache st
    /\ frameCache st !! key = Some frame
    /\ beginQueue st' = beginQueue st
    /\ processName st' = processName st
    /\ threadName st' = threadName st
    /\ ((endQueue st' = q /\ key = event_key item)
        \/ exists tmp tl i e,
             q = tmp :: tl
             /\ find_sibling (event_key top) (ts tmp) tl 1 = Some (i, e)
             /\ endQueue st' = <[i := tmp]> (<[0%nat := e]> q)
             /\ key = event_key e).
Proof.
  unfold end_step. destruct (endQueue st) as [|item q] eqn:Hq; [discriminate|].
  locals. destruct (stack st) as [|top rest] eqn:Hs; [discriminate|].
  fold (event_key top). fold (event_key item).
  destruct q as [|tmp tl]; cbn [head].
  - locals. fold (event_key item).
    destruct (frameCache st !! event_key item) as [frame|] eqn:Hc; [|discriminate].
    intros [= <-]. exists item, [], top, rest, frame, (event_key item). locals.
      repeat split; auto.
  - destruct (find_sibling (event_key top) (ts tmp) tl 1) as [[i e]|] eqn:Hfind; locals.
    + fold (event_key e).
      destruct (frameCache st !! event_key e) as [frame|] eqn:Hc; [|discriminate].
      intros [= <-]. exists item, (tmp :: tl), top, rest, frame, (event_key e). locals.
      repeat split; auto. right. exists tmp, tl, i, e. auto.
    + fold (event_key item).
      destruct (frameCache st !! event_key item) as [frame|] eqn:Hc; [|discriminate].
      intros [= <-]. exists item, (tmp :: tl), top, rest, frame, (event_key item). locals.
      repeat split; auto.
Qed.

Lemma swap_Permutation {A : Type} (tmp e : A) (tl : list A) (j : nat) :
  tl !! j = Some e ->
  <[S j := tmp]> (<[0%nat := e]> (tmp :: tl)) ≡ₚ tmp :: tl.
Proof.
  intros Hj. change (e :: <[j:=tmp]> tl ≡ₚ tmp :: tl).
  rewrite insert_take_drop by (by eapply lookup_lt_Some).
  transitivity (tmp :: (take j tl ++ e :: drop (S j) tl)); [|by rewrite take_drop_middle].
  rewrite <- !Permutation_middle. apply Permutation_swap.
Qed.

Lemma swap_same_timestamps (tmp e : Event) (tl : list Event) (j : nat) :
  chronological (tmp :: tl) ->
  tl !! j = Some e ->
  ts e <= ts tmp ->
  ts <$> <[S j := tmp]> (<[0%nat := e]> (tmp :: tl)) = ts <$> (tmp :: tl).
Proof.
  unfold chronological. intros Hs Hj Hle.
  change (ts <$> (e :: <[j:=tmp]> tl) = ts <$> (tmp :: tl)).
  rewrite !fmap_cons in *.
  apply StronglySorted_inv in Hs as [_ Hall].
  assert (Hge : ts tmp <= ts e).
  { rewrite Forall_forall in Hall. apply Hall.
    apply list_elem_of_fmap. exists e. split; [done|]. by eapply list_elem_of_lookup_2. }
  assert (Heq : ts e = ts tmp) by lia.
  rewrite Heq. f_equal. rewrite list_fmap_insert.
  apply list_insert_id. rewrite list_lookup_fmap, Hj. cbn. by rewrite Heq.
Qed.

(** X6: an iteration of the merge loop that returns takes exactly one entry
    off the queues.  In the Begin branch the head of the begin queue moves to
    the top of the stack and the end queue is untouched; in the End branch
    the head of the end queue is the entry that goes, the entries that stay
    are the others (the swap only reorders them), the begin queue is
    untouched and the stack loses its top. *)
Theorem iteration_takes_one_entry (firstTimestamp : Z) (st st' : Locals) :
  step firstTimestamp st = Ok st' ->
  (exists item,
      beginQueue st = item :: beginQueue st'
      /\ endQueue st' = endQueue st
      /\ stack st' = item :: stack st)
  \/ (exists item q top,
        endQueue st = item :: q
        /\ endQueue st' ≡ₚ q
        /\ beginQueue st' = beginQueue st
        /\ stack st = top :: stack st').
Proof.
  unfold step. destruct (getNextQueue (beginQueue st) (endQueue st)) as [[|]|]; cbn [bind];
    [| |discriminate].
  - intros (item & q & frame & Hb & Hb' & He' & Hs & _)%begin_step_full.
    left. exists item. rewrite Hb, Hb'. auto.
  - intros (item & q & top & rest & frame & key & He & Hs & Hs' & _ & _ & _ & Hb' & _ & _ & Hq)
      %end_step_full.
    right. exists item, q, top. split; [done|]. split; [|by rewrite Hs, Hs'].
    destruct Hq as [[-> _]|(tmp & tl & i & e & -> & Hfind & -> & _)]; [done|].
    apply find_sibling_spec in Hfind as (j & -> & Hj & _). by apply swap_Permutation.
Qed.

Lemma iteration_takes_one_entry_witness :
  let st := normalize "1" "1" [sample (Some 1) (Some 1) 0 B "f" "{}";
                               sample (Some 1) (Some 1) 1 E "f" "{}"] in
  let st' := set_stack [sample (Some 1) (Some 1) 0 B "f" "{}"]
               (call (enterFrame {| Frame.key := "{}"; Frame.name := "f {}" |} 0)
                  (set_frameCache (<["{}" := {| Frame.key := "{}"; Frame.name := "f {}" |}]> ∅)
                     (set_beginQueue [] st))) in
  (exists item,
      beginQueue st = item :: beginQueue st'
      /\ endQueue st' = endQueue st
      /\ stack st' = item :: stack st)
  \/ (exists item q top,
        endQueue st = item :: q
        /\ endQueue st' ≡ₚ q
        /\ beginQueue st' = beginQueue st
        /\ stack st = top :: stack st').
Proof.
  exact (iteration_takes_one_entry 0
           (normalize "1" "1" [sample (Some 1) (Some 1) 0 B "f" "{}";
                               sample (Some 1) (Some 1) 1 E "f" "{}"])
           (set_stack [sample (Some 1) (Some 1) 0 B "f" "{}"]
              (call (enterFrame {| Frame.key := "{}"; Frame.name := "f {}" |} 0)
                 (set_frameCache (<["{}" := {| Frame.key := "{}"; Frame.name := "f {}" |}]> ∅)
                    (set_beginQueue []
                       (normalize "1" "1" [sample (Some 1) (Some 1) 0 B "f" "{}";
                                           sample (Some 1) (Some 1) 1 E "f" "{}"])))))
           eq_refl).
Defined.

(** ** The errors of the import *)

Lemma step_error (firstTimestamp : Z) (st : Locals) (e : Error) :
  drained st = false ->
  step firstTimestamp st = Throw e ->
  (e = TypeError /\ stack st = [] /\ getNextQueue (beginQueue st) (endQueue st) = Ok QE)
  \/ (exists key, e = NeverEntered key /\ frameCache st !! key = None /\ stack st <> []).
Proof.
  intros Hd. unfold step.
  destruct (getNextQueue (beginQueue st) (endQueue st)) as [[|]|e'] eqn:Hnext; cbn [bind].
  - apply getNextQueue_QB in Hnext as (item & q & Hq & _).
    destruct (begin_step_spec firstTimestamp st item q Hq) as (frame & cache & -> & _).
    discriminate.
  - apply getNextQueue_QE in Hnext as (item & q & Hq & _).
    unfold end_step. rewrite Hq. locals.
    destruct (stack st) as [|top rest] eqn:Hs; [intros [= <-]; left; done|].
    destruct q as [|tmp tl]; cbn [head]; locals.
    + destruct (frameCache st !! _) eqn:Hc; [discriminate|].
      intros [= <-]. right. eexists. split; [reflexivity|]. split; [exact Hc|done].
    + destruct (find_sibling _ (ts tmp) tl 1) as [[i e0]|]; locals;
        (destruct (frameCache st !! _) eqn:Hc; [discriminate|]);
        intros [= <-]; right; eexists; (split; [reflexivity|]); (split; [exact Hc|done]).
  - exfalso. revert Hnext Hd. unfold getNextQueue, drained.
    destruct (bool_decide (beginQueue st = []) && bool_decide (endQueue st = []));
      [discriminate|].
    repeat match goal with
           | |- context [match ?x with _ => _ end] => destruct x eqn:?; try discriminate
           | |- context [if ?x then _ else _] => destruct x eqn:?; try discriminate
           end.
Qed.

Lemma merge_loop_error (firstTimestamp : Z) (budget : nat) (st : Locals) (e : Error) :
  merge_loop firstTimestamp budget st = Throw e ->
  e = LoopBudgetExhausted \/ e = TypeError \/ exists key, e = NeverEntered key.
Proof.
  revert st. induction budget as [|budget IH]; intros st; cbn [merge_loop].
  - destruct (drained st); [discriminate|]. intros [= <-]. auto.
  - destruct (drained st) eqn:Hd; [discriminate|].
    destruct (step firstTimestamp st) as [st1|e'] eqn:Hstep; cbn [bind]; [apply IH|].
    intros [= <-]. destruct (step_error _ _ _ Hd Hstep) as [(-> & _)|(key & -> & _)]; eauto.
Qed.

Lemma buildProfile_error
  (totalWeight : list Call -> Frame.t -> Z) (processId threadId : string)
  (events : list Event) (e : Error) :
  buildProfile totalWeight processId threadId events = Throw e ->
  (e = NoFrameEvents /\ beginQueue (normalize processId threadId events) = [])
  \/ (beginQueue (normalize processId threadId events) <> []
      /\ (e = TypeError \/ exists key, e = NeverEntered key)).
Proof.
  intros Hthrow.
  pose proof (buildProfile_budget totalWeight processId threadId events) as Hbudget.
  rewrite Hthrow in Hbudget. revert Hthrow. unfold buildProfile, run_timeline.
  destruct (beginQueue (normalize processId threadId events)) as [|first q] eqn:Hq;
    [intros [= <-]; left; done|].
  destruct (merge_loop (ts first) _ (normalize processId threadId events)) as [st1|e'] eqn:Hloop;
    cbn [bind].
  - assert (Hcached : stack_cached st1).
    { eapply (merge_loop_invariant (ts first) stack_cached); [|exact Hloop|].
      - intros ? ?. apply step_stack_cached.
      - apply normalize_invariants. }
    destruct (close_leftover_spec totalWeight (stack st1) st1 Hcached eq_refl)
      as (st' & added & -> & _).
    discriminate.
  - intros [= <-]. right. split; [done|].
    apply merge_loop_error in Hloop as [->|H]; [done|exact H].
Qed.

(** The errors of the import, for traces of the event type of this file. *)
Lemma import_error_cases
  (totalWeight : list Call -> Frame.t -> Z) (input : Js.Value) (e : Error) :
  importChromeTrace totalWeight input = Throw e ->
  e = ObjectFormatNotSupported \/ e = FailedToParse \/ e = NoFrameEvents
  \/ e = TypeError \/ exists key, e = NeverEntered key.
Proof.
  destruct input; cbn; try (intros [= <-]; auto 6; fail).
  - intros (finished & b & rest & _ & _ & Hb)%parse_Throw%build_all_Throw.
    apply buildProfile_error in Hb as [[-> _]|[_ [->|Hk]]]; auto 6.
  - unfold importChromeTrace, isChromeTraceObjectFormat. cbn.
    destruct (bool_decide ("traceEvents" ∈ properties)); intros [= <-]; auto.
Qed.

(** X7: the two internal checks of the merge loop never fire: neither
    [buildProfile] nor the import ends with "Profile contains no events"
    (thrown by [getNextQueue] when both queues are empty) or with "Nothing to
    take from begin queue" (thrown by the Begin branch when the begin queue
    is empty). *)
Theorem internal_checks_never_fire
  (totalWeight : list Call -> Frame.t -> Z) (processId threadId : string)
  (events : list Event) (input : Js.Value) :
  buildProfile totalWeight processId threadId events <> Throw NoEvents
  /\ buildProfile totalWeight processId threadId events <> Throw NothingToTake
  /\ importChromeTrace totalWeight input <> Throw NoEvents
  /\ importChromeTrace totalWeight input <> Throw NothingToTake.
Proof.
  split; [|split; [|split]].
  - intros [[? _]|[_ [?|[key ?]]]]%buildProfile_error; discriminate.
  - intros [[? _]|[_ [?|[key ?]]]]%buildProfile_error; discriminate.
  - intros [?|[?|[?|[?|[key ?]]]]]%import_error_cases; discriminate.
  - intros [?|[?|[?|[?|[key ?]]]]]%import_error_cases; discriminate.
Qed.

(** ** The queues of a bucket *)

Lemma begin_entry_B (e : Event) : ph e = B -> begin_entry e = e.
Proof. destruct e. cbn. intros ->. reflexivity. Qed.

Lemma end_entry_E (e : Event) : ph e = E -> end_entry e = e.
Proof. unfold end_entry, end_time. destruct e. cbn. intros ->. reflexivity. Qed.

Lemma collect_event_queues (processId threadId : string) (st : Locals) (e : Event) :
  beginQueue (collect_event processId threadId st e)
    = beginQueue st ++ (if opens_frame e then [begin_entry e] else [])
  /\ endQueue (collect_event processId threadId st e)
     = endQueue st ++ (if closes_frame e then [end_entry e] else []).
Proof.
  unfold collect_event, push_event, opens_frame, closes_frame.
  destruct (ph e) eqn:Hph.
  - rewrite (begin_entry_B e Hph). locals. by rewrite app_nil_r.
  - rewrite (end_entry_E e Hph). locals. by rewrite app_nil_r.
  - assert (Hb : with_ph e B = begin_entry e) by reflexivity.
    assert (He : with_ph_ts e E (ts e + duration e) = end_entry e).
    { unfold end_entry, end_time. by rewrite Hph. }
    fold (duration e). rewrite Hb, He.
    destruct (bool_decide (is_Some (dur e)) || bool_decide (is_Some (tdur e)));
      locals; rewrite ?app_nil_r; auto.
  - destruct (arg_name (args e)); [destruct (named e "thread_name"), (named e "process_name")|];
      locals; rewrite ?app_nil_r; auto.
  - locals. by rewrite !app_nil_r.
Qed.

Lemma fold_collect_queues (processId threadId : string) (l : list Event) (st : Locals) :
  beginQueue (fold_left (collect_event processId threadId) l st)
    = beginQueue st ++ map begin_entry (List.filter opens_frame l)
  /\ endQueue (fold_left (collect_event processId threadId) l st)
     = endQueue st ++ map end_entry (List.filter closes_frame l).
Proof.
  revert st. induction l as [|e l IH]; intros st; cbn [fold_left List.filter map].
  - by rewrite !app_nil_r.
  - destruct (IH (collect_event processId threadId st e)) as [-> ->].
    destruct (collect_event_queues processId threadId st e) as [-> ->].
    destruct (opens_frame e), (closes_frame e); cbn [map];
      rewrite <- ?app_assoc, ?app_nil_r; auto.
Qed.

Lemma filter_filter_implied {A : Type} (f g : A -> bool) (l : list A) :
  (forall a, f a = true -> g a = true) ->
  List.filter f (List.filter g l) = List.filter f l.
Proof.
  intros Himp. induction l as [|a l IH]; [done|]. cbn [List.filter].
  destruct (g a) eqn:Hg; cbn [List.filter].
  - by rewrite IH.
  - rewrite IH. destruct (f a) eqn:Hf; [|done]. apply Himp in Hf. congruence.
Qed.

Lemma collect_queues (processId threadId : string) (events : list Event) :
  beginQueue (collect processId threadId events)
    = map begin_entry (List.filter opens_frame events)
  /\ endQueue (collect processId threadId events)
     = map end_entry (List.filter closes_frame events).
Proof.
  unfold collect.
  destruct (fold_collect_queues processId threadId (List.filter isTimelineEvent events)
              (initial processId threadId)) as [-> ->].
  cbn [initial beginQueue endQueue app].
  rewrite !filter_filter_implied; [done| |].
  - intros e. unfold closes_frame, isTimelineEvent. by destruct (ph e).
  - intros e. unfold opens_frame, isTimelineEvent. by destruct (ph e).
Qed.

Lemma sorted_chronological (l : list Event) :
  chronological (Js.sort chronologicalSort l).
Proof.
  unfold chronological.
  apply (StronglySorted_fmap ts (fun a b => ts a <= ts b)); [done|]. apply sort_chronological.
Qed.

Lemma normalize_chronological (processId threadId : string) (events : list Event) :
  chronological (beginQueue (normalize processId threadId events))
  /\ chronological (endQueue (normalize processId threadId events)).
Proof. unfold normalize. locals. split; apply sorted_chronological. Qed.

(** X8: the begin queue the merge loop receives holds one entry for each B
    event and each X event with a numeric [dur] or [tdur] of the bucket, the
    end queue one entry for each E event and each such X event; both are in
    ascending order of timestamp.  A begin entry has phase B and the
    timestamp, name and [args] of its event; an end entry has phase E, the
    name and [args] of its event, and the timestamp of an E event or [ts]
    plus the duration of an X event.  Metadata events, events of other phases
    and X events without a duration put nothing on either queue. *)
Theorem queues_of_bucket (processId threadId : string) (events : list Event) :
  beginQueue (normalize processId threadId events)
    ≡ₚ map begin_entry (List.filter opens_frame events)
  /\ endQueue (normalize processId threadId events)
     ≡ₚ map end_entry (List.filter closes_frame events)
  /\ chronological (beginQueue (normalize processId threadId events))
  /\ chronological (endQueue (normalize processId threadId events))
  /\ (forall e, ph (begin_entry e) = B /\ ts (begin_entry e) = ts e
                 /\ name (begin_entry e) = name e /\ args (begin_entry e) = args e)
  /\ (forall e, ph (end_entry e) = E
                 /\ name (end_entry e) = name e /\ args (end_entry e) = args e
                 /\ (ph e = E -> ts (end_entry e) = ts e)
                 /\ (ph e = X ->
                     (forall d, dur e = Some d -> ts (end_entry e) = ts e + d)
                     /\ (forall d, dur e = None -> tdur e = Some d ->
                                   ts (end_entry e) = ts e + d))).
Proof.
  split; [|split; [|split; [|split; [|split]]]].
  - unfold normalize. locals.
    destruct (collect_queues processId threadId events) as [-> _]. apply sort_Permutation.
  - unfold normalize. locals.
    destruct (collect_queues processId threadId events) as [_ ->]. apply sort_Permutation.
  - apply normalize_chronological.
  - apply normalize_chronological.
  - intros e. repeat split.
  - intros e. unfold end_entry, end_time, duration. cbn [ph name args ts].
    split; [done|]. split; [done|]. split; [done|]. split.
    + by intros ->.
    + intros ->. split.
      * by intros d ->.
      * by intros d -> ->.
Qed.

(** ** A bucket without frames *)

Lemma normalize_beginQueue_nil (processId threadId : string) (events : list Event) :
  beginQueue (normalize processId threadId events) = []
  <-> forall e, e ∈ events -> opens_frame e = false.
Proof.
  unfold normalize. locals.
  destruct (collect_queues processId threadId events) as [-> _].
  rewrite <- Permutation_nil_r, sort_Permutation, Permutation_nil_r. split.
  - intros Hnil e He. destruct (opens_frame e) eqn:Ho; [|done].
    assert (Hin : In e (List.filter opens_frame events)).
    { apply filter_In. split; [by apply list_elem_of_In|done]. }
    destruct (List.filter opens_frame events); [done|discriminate].
  - intros Hall. induction events as [|e events IH]; [done|]. cbn [List.filter].
    rewrite (Hall e) by (by left). apply IH. intros e' He'. apply Hall. by right.
Qed.

(** X9: building the profile of a bucket fails with "Profile does not
    contain any frame events" exactly when the bucket has no B event and no X
    event with a numeric [dur] or [tdur]. *)
Theorem no_frame_events_iff
  (totalWeight : list Call -> Frame.t -> Z) (processId threadId : string)
  (events : list Event) :
  buildProfile totalWeight processId threadId events = Throw NoFrameEvents
  <-> forall e, e ∈ events -> opens_frame e = false.
Proof.
  rewrite <- (normalize_beginQueue_nil processId threadId). split.
  - intros [[_ Hnil]|[_ [Habs|[key Habs]]]]%buildProfile_error; [done|discriminate..].
  - intros Hnil. unfold buildProfile, run_timeline. by rewrite Hnil.
Qed.

(** ** The thread label *)

Lemma collect_event_threadName (processId threadId : string) (st : Locals) (e : Event) :
  threadName (collect_event processId threadId st e)
  = match arg_name (args e) with
    | Some n => if names_thread e then n +:+ " (" +:+ threadId +:+ ")" else threadName st
    | None => threadName st
    end.
Proof.
  unfold collect_event, push_event, names_thread.
  destruct (ph e) eqn:Hph, (arg_name (args e)) as [n|];
    cbn [bool_decide andb];
    repeat match goal with
           | |- context [if named ?a ?b then _ else _] => destruct (named a b)
           | |- context [bool_decide ?P || bool_decide ?Q] =>
               destruct (bool_decide P || bool_decide Q)
           end;
    locals; reflexivity.
Qed.

Lemma fold_collect_threadName (processId threadId : string) (l : list Event) (st : Locals) :
  (forall e, e ∈ l -> names_thread e = false) ->
  threadName (fold_left (collect_event processId threadId) l st) = threadName st.
Proof.
  revert st. induction l as [|e l IH]; intros st Hall; [done|]. cbn [fold_left].
  rewrite IH by (intros e' He'; apply Hall; by right).
  rewrite collect_event_threadName, (Hall e) by (by left).
  by destruct (arg_name (args e)).
Qed.

Lemma run_timeline_names
  (totalWeight : list Call -> Frame.t -> Z) (st st' : Locals) :
  stack_cached st ->
  run_timeline totalWeight st = Ok st' ->
  processName st' = processName st /\ threadName st' = threadName st.
Proof.
  intros Hinit. unfold run_timeline. destruct (beginQueue st) as [|first q]; [discriminate|].
  destruct (merge_loop (ts first) _ st) as [st1|] eqn:Hloop; cbn [bind]; [|discriminate].
  intros Htail.
  assert (Hnames : processName st1 = processName st /\ threadName st1 = threadName st).
  { eapply (merge_loop_invariant (ts first)
              (fun s => processName s = processName st /\ threadName s = threadName st));
      [|exact Hloop|done].
    intros s s' [(? & ? & ? & _ & _ & _ & _ & _ & _ & _ & -> & ->)
                |(? & ? & ? & ? & ? & _ & _ & _ & _ & _ & _ & _ & -> & ->)]%step_spec; done. }
  assert (Hcached : stack_cached st1).
  { eapply (merge_loop_invariant (ts first) stack_cached); [|exact Hloop|exact Hinit].
    intros ? ?. apply step_stack_cached. }
  destruct (close_leftover_spec totalWeight _ st1 Hcached eq_refl)
    as (st2 & added & Hrun & _ & _ & Hp & Ht & _).
  assert (st2 = st') by congruence. subst st2. destruct Hnames as [<- <-]. done.
Qed.

(** X10: a metadata event named "thread_name" whose [args.name] is a string
    sets the thread label to that name followed by the thread id in
    parentheses; the last such event of the bucket decides the label, the
    event puts nothing on the queues, and a profile that is built carries the
    label in its name. *)
Theorem thread_name_labels_profile
  (totalWeight : list Call -> Frame.t -> Z) (processId threadId : string)
  (before after : list Event) (m : Event) (n : string) :
  names_thread m = true ->
  arg_name (args m) = Some n ->
  (forall e, e ∈ after -> names_thread e = false) ->
  let st := normalize processId threadId (before ++ m :: after) in
  threadName st = n +:+ " (" +:+ threadId +:+ ")"
  /\ beginQueue st = beginQueue (normalize processId threadId (before ++ after))
  /\ endQueue st = endQueue (normalize processId threadId (before ++ after))
  /\ forall profile,
       buildProfile totalWeight processId threadId (before ++ m :: after) = Ok profile ->
       EventedProfile.name profile
       = processName st +:+ ": " +:+ n +:+ " (" +:+ threadId +:+ ")".
Proof.
  intros Hm Hn Hafter st.
  assert (HphM : ph m = M).
  { unfold names_thread in Hm. destruct (ph m); try discriminate. reflexivity. }
  assert (Hlabel : threadName st = n +:+ " (" +:+ threadId +:+ ")").
  { subst st. unfold normalize, collect. locals.
    rewrite List.filter_app. cbn [List.filter].
    replace (isTimelineEvent m) with true by (unfold isTimelineEvent; by rewrite HphM).
    rewrite fold_left_app. cbn [fold_left].
    rewrite fold_collect_threadName.
    - by rewrite collect_event_threadName, Hn, Hm.
    - intros e He. apply Hafter. apply list_elem_of_In. apply list_elem_of_In in He.
      by apply filter_In in He as [He _]. }
  assert (Hopen : opens_frame m = false) by (unfold opens_frame; by rewrite HphM).
  assert (Hclose : closes_frame m = false) by (unfold closes_frame; by rewrite HphM).
  split; [exact Hlabel|]. subst st. split; [|split].
  - unfold normalize. locals.
    destruct (collect_queues processId threadId (before ++ m :: after)) as [-> _].
    destruct (collect_queues processId threadId (before ++ after)) as [-> _].
    rewrite !List.filter_app. cbn [List.filter]. by rewrite Hopen.
  - unfold normalize. locals.
    destruct (collect_queues processId threadId (before ++ m :: after)) as [_ ->].
    destruct (collect_queues processId threadId (before ++ after)) as [_ ->].
    rewrite !List.filter_app. cbn [List.filter]. by rewrite Hclose.
  - intros profile. unfold buildProfile.
    destruct (run_timeline totalWeight _) as [st'|] eqn:Hrun; cbn [bind]; [|discriminate].
    intros [= <-].
    apply run_timeline_names in Hrun as [Hp Ht]; [|apply normalize_invariants].
    cbn [build EventedProfile.name]. by rewrite Hp, Ht, Hlabel.
Qed.

Lemma thread_name_labels_profile_witness :
  let m := {| pid := Some 1; tid := Some 1; ts := 0; ph := M; name := Some "thread_name";
              args := {| stringified := "{name}"; arg_name := Some "Main" |};
              dur := None; tdur := None |} in
  let b := sample (Some 1) (Some 1) 0 B "f" "{}" in
  let st := normalize "1" "1" ([b] ++ m :: []) in
  threadName st = "Main" +:+ " (" +:+ "1" +:+ ")"
  /\ beginQueue st = beginQueue (normalize "1" "1" ([b] ++ []))
  /\ endQueue st = endQueue (normalize "1" "1" ([b] ++ []))
  /\ forall profile,
       buildProfile call_count_weight "1" "1" ([b] ++ m :: []) = Ok profile ->
       EventedProfile.name profile = processName st +:+ ": " +:+ "Main" +:+ " (" +:+ "1" +:+ ")".
Proof.
  apply (thread_name_labels_profile call_count_weight "1" "1"
           [sample (Some 1) (Some 1) 0 B "f" "{}"] []
           {| pid := Some 1; tid := Some 1; ts := 0; ph := M; name := Some "thread_name";
              args := {| stringified := "{name}"; arg_name := Some "Main" |};
              dur := None; tdur := None |} "Main" eq_refl eq_refl).
  intros e He. by apply elem_of_nil in He.
Defined.

Example thread_name_in_profile_name :
  match buildProfile call_count_weight "7" "9"
          [sample (Some 7) (Some 9) 0 B "f" "{}";
           {| pid := Some 7; tid := Some 9; ts := 0; ph := M; name := Some "thread_name";
              args := {| stringified := "{name}"; arg_name := Some "Main" |};
              dur := None; tdur := None |}] with
  | Ok profile => EventedProfile.name profile
  | Throw _ => EmptyString
  end = "pid (7): Main (9)".
Proof. reflexivity. Qed.

(** ** The frames of the calls *)

(** A profile that is built comes from a run of the merge loop and of the
    forced closes. *)
Lemma buildProfile_run
  (totalWeight : list Call -> Frame.t -> Z) (processId threadId : string)
  (events : list Event) (profile : EventedProfile.t) :
  buildProfile totalWeight processId threadId events = Ok profile ->
  exists first q merged final added,
    beginQueue (normalize processId threadId events) = first :: q
    /\ merge_loop (ts first)
         (length (first :: q) + length (endQueue (normalize processId threadId events)))
         (normalize processId threadId events) = Ok merged
    /\ close_leftover totalWeight (stack merged) merged = Ok final
    /\ profile = build final
    /\ frameCache final = frameCache merged
    /\ calls final = calls merged ++ added
    /\ length added = length (stack merged)
    /\ (forall (i : nat) (item : Event),
          stack merged !! i = Some item ->
          exists frame,
            frameCache merged !! event_key item = Some frame
            /\ added !! i
               = Some (leaveFrame frame (totalWeight (calls merged ++ take i added) frame))).
Proof.
  unfold buildProfile.
  destruct (run_timeline totalWeight (normalize processId threadId events)) as [st|] eqn:Hrun;
    cbn [bind]; [|discriminate].
  intros [= <-]. revert Hrun. unfold run_timeline.
  destruct (beginQueue (normalize processId threadId events)) as [|first q] eqn:Hq;
    [discriminate|].
  destruct (merge_loop (ts first) _ (normalize processId threadId events)) as [st1|] eqn:Hloop;
    cbn [bind]; [|discriminate].
  intros Htail.
  assert (Hcached : stack_cached st1).
  { eapply (merge_loop_invariant (ts first) stack_cached); [|exact Hloop|].
    - intros ? ?. apply step_stack_cached.
    - apply normalize_invariants. }
  destruct (close_leftover_spec totalWeight (stack st1) st1 Hcached eq_refl)
    as (st' & added & Hrun & _ & Hc & _ & _ & Hcalls & Hlen & _ & Hith).
  assert (st' = st) by congruence. subst st'.
  exists first, q, st1, st, added. auto 10.
Qed.

Lemma step_frames_cached (firstTimestamp : Z) (st st' : Locals) :
  step firstTimestamp st = Ok st' ->
  frames_cached st /\ entered_before_left (calls st) ->
  frames_cached st' /\ entered_before_left (calls st').
Proof.
  unfold step, frames_cached, entered_before_left.
  destruct (getNextQueue (beginQueue st) (endQueue st)) as [[|]|]; cbn [bind];
    [| |discriminate].
  - intros (item & q & frame & _ & _ & _ & _ & Hcalls & _ & _ & Hcache)%begin_step_full
      [[Hkey Hcall] Hleft].
    rewrite Hcalls. split; [split|].
    + intros k f Hk.
      assert (Hold : forall k f, frameCache st !! k = Some f ->
                Frame.key f = k
                /\ exists j t, (calls st ++ [enterFrame frame (ts item - firstTimestamp)]) !! j
                               = Some (enterFrame f t)).
      { intros k0 f0 (Hk0 & j & t & Hj)%Hkey. split; [done|]. exists j, t.
        by apply lookup_app_l_Some. }
      destruct Hcache as [[_ Heq]|(Hnone & -> & Heq)]; rewrite Heq in Hk; [by apply Hold|].
      destruct (decide (event_key item = k)) as [<-|Hne].
      * rewrite lookup_insert_eq in Hk. injection Hk as <-. split; [reflexivity|].
        exists (length (calls st)), (ts item - firstTimestamp).
        by rewrite lookup_app_r, Nat.sub_diag.
      * rewrite lookup_insert_ne in Hk by done. by apply Hold.
    + intros c [Hc| ->%list_elem_of_singleton]%elem_of_app.
      * destruct Hcache as [[_ ->]|(Hnone & _ & ->)]; [by apply Hcall|].
        rewrite lookup_insert_ne; [by apply Hcall|].
        intros Heq. apply Hcall in Hc. rewrite <- Heq in Hc. congruence.
      * cbn [call_frame].
        destruct Hcache as [[Hsome ->]|(Hnone & -> & ->)].
        -- destruct (Hkey _ _ Hsome) as [-> _]. exact Hsome.
        -- apply lookup_insert_eq.
    + intros i f t Hi. apply lookup_app_Some in Hi as [Hi|[_ Hi]].
      * destruct (Hleft i f t Hi) as (j & t' & Hlt & Hj). exists j, t'. split; [done|].
        by apply lookup_app_l_Some.
      * apply list_lookup_singleton_Some in Hi as [_ Hi]. discriminate.
  - intros (item & q & top & rest & frame & key & _ & _ & _ & Hcalls & Hcache & Hframe & _)
      %end_step_full [[Hkey Hcall] Hleft].
    rewrite Hcalls, Hcache. split; [split|].
    + intros k f (Hk & j & t & Hj)%Hkey. split; [done|]. exists j, t.
      by apply lookup_app_l_Some.
    + intros c [Hc| ->%list_elem_of_singleton]%elem_of_app; [by apply Hcall|].
      cbn [call_frame]. destruct (Hkey _ _ Hframe) as [-> _]. exact Hframe.
    + intros i f t Hi. apply lookup_app_Some in Hi as [Hi|[Hge Hi]].
      * destruct (Hleft i f t Hi) as (j & t' & Hlt & Hj). exists j, t'. split; [done|].
        by apply lookup_app_l_Some.
      * apply list_lookup_singleton_Some in Hi as [Hd [= <- <-]].
        destruct (Hkey _ _ Hframe) as (_ & j & t' & Hj).
        exists j, t'. split; [|by apply lookup_app_l_Some].
        apply lookup_lt_Some in Hj. lia.
Qed.

Lemma buildProfile_frames
  (totalWeight : list Call -> Frame.t -> Z) (processId threadId : string)
  (events : list Event) (profile : EventedProfile.t) :
  buildProfile totalWeight processId threadId events = Ok profile ->
  exists cache : gmap string Frame.t,
    (forall c, c ∈ EventedProfile.calls profile ->
               cache !! Frame.key (call_frame c) = Some (call_frame c))
    /\ entered_before_left (EventedProfile.calls profile).
Proof.
  intros (first & q & merged & final & added & Hq & Hloop & _ & -> & _ & Hcalls & Hlen & Hith)
    %buildProfile_run.
  assert (Hinv : frames_cached merged /\ entered_before_left (calls merged)).
  { eapply (merge_loop_invariant (ts first)
              (fun s => frames_cached s /\ entered_before_left (calls s))); [|exact Hloop|].
    - intros ? ?. apply step_frames_cached.
    - destruct (normalize_fresh processId threadId events) as (_ & Hc & Hl).
      unfold frames_cached, entered_before_left. rewrite Hc, Hl. split; [split|].
      + intros k f Hk. by rewrite lookup_empty in Hk.
      + intros c Hin. by apply elem_of_nil in Hin.
      + intros i f t Hi. by rewrite lookup_nil in Hi. }
  destruct Hinv as [[Hkey Hcall] Hleft].
  assert (Hadded : forall i c, added !! i = Some c ->
            exists frame t, c = leaveFrame frame t
                            /\ frameCache merged !! Frame.key frame = Some frame).
  { intros i c Hi.
    assert (Hlt : (i < length (stack merged))%nat).
    { rewrite <- Hlen. by eapply lookup_lt_Some. }
    apply lookup_lt_is_Some in Hlt as [item Hitem].
    destruct (Hith i item Hitem) as (frame & Hframe & Hi').
    rewrite Hi in Hi'. injection Hi' as ->. eexists _, _. split; [reflexivity|].
    destruct (Hkey _ _ Hframe) as [-> _]. exact Hframe. }
  exists (frameCache merged). cbn [build EventedProfile.calls]. rewrite Hcalls. split.
  - intros c [Hc|Hc]%elem_of_app; [by apply Hcall|].
    apply list_elem_of_lookup in Hc as [i Hi].
    destruct (Hadded i c Hi) as (frame & t & -> & Hframe). exact Hframe.
  - intros i f t Hi. apply lookup_app_Some in Hi as [Hi|[Hge Hi]].
    + destruct (Hleft i f t Hi) as (j & t' & Hlt & Hj). exists j, t'. split; [done|].
      by apply lookup_app_l_Some.
    + destruct (Hadded _ _ Hi) as (frame & t0 & [= <- <-] & Hframe).
      destruct (Hkey _ _ Hframe) as (_ & j & t' & Hj). exists j, t'.
      split; [|by apply lookup_app_l_Some]. apply lookup_lt_Some in Hj. lia.
Qed.



(** X12: in a profile that is built, every [leaveFrame] call, of the merge
    loop or of the forced closes, comes after an [enterFrame] call for the
    same frame: no frame is left that was never entered. *)
Theorem no_leave_before_enter
  (totalWeight : list Call -> Frame.t -> Z) (processId threadId : string)
  (events : list Event) (profile : EventedProfile.t) :
  buildProfile totalWeight processId threadId events = Ok profile ->
  forall i f t,
    EventedProfile.calls profile !! i = Some (leaveFrame f t) ->
    exists j t', (j < i)%nat /\ EventedProfile.calls profile !! j = Some (enterFrame f t').
Proof.
  intros (cache & _ & Hleft)%buildProfile_frames. exact Hleft.
Qed.

Lemma no_leave_before_enter_witness :
  let f := {| Frame.key := "{}"; Frame.name := "f {}" |} in
  exists j t', (j < 1)%nat /\ [enterFrame f 0; leaveFrame f 4] !! j = Some (enterFrame f t').
Proof.
  exact (no_leave_before_enter call_count_weight "1" "1"
           [sample (Some 1) (Some 1) 0 B "f" "{}"; sample (Some 1) (Some 1) 4 E "f" "{}"]
           {| EventedProfile.name := "pid (1): tid (1)";
              EventedProfile.calls :=
                [enterFrame {| Frame.key := "{}"; Frame.name := "f {}" |} 0;
                 leaveFrame {| Frame.key := "{}"; Frame.name := "f {}" |} 4] |}
           eq_refl 1%nat {| Frame.key := "{}"; Frame.name := "f {}" |} 4 eq_refl).
Defined.

(** ** The times of the calls *)

Lemma chronological_cons (x : Event) (l : list Event) :
  chronological (x :: l) <-> chronological l /\ forall e, e ∈ l -> ts x <= ts e.
Proof.
  unfold chronological. rewrite fmap_cons. split.
  - intros [Hs Hall]%StronglySorted_inv. split; [done|].
    rewrite Forall_forall in Hall. intros e He. apply Hall.
    apply list_elem_of_fmap. by exists e.
  - intros [Hs Hall]. constructor; [done|]. apply Forall_forall.
    intros t (e & -> & He)%list_elem_of_fmap. by apply Hall.
Qed.

Lemma chronological_head (l : list Event) (h e : Event) :
  chronological l -> head l = Some h -> e ∈ l -> ts h <= ts e.
Proof.
  destruct l as [|x l]; [discriminate|]. intros [_ Hall]%chronological_cons [= ->].
  intros [->|He]%elem_of_cons; [lia|by apply Hall].
Qed.

Lemma sorted_snoc (l : list Z) (x : Z) :
  StronglySorted Z.le l -> Forall (fun y => y <= x) l -> StronglySorted Z.le (l ++ [x]).
Proof.
  intros Hs Hall. apply StronglySorted_app_2; [|done|repeat constructor].
  intros y z Hy ->%list_elem_of_singleton. rewrite Forall_forall in Hall. by apply Hall.
Qed.

Lemma step_timed (firstTimestamp : Z) (st st' : Locals) :
  step firstTimestamp st = Ok st' ->
  timed firstTimestamp st /\ balanced st ->
  timed firstTimestamp st'.
Proof.
  unfold step, timed.
  destruct (getNextQueue (beginQueue st) (endQueue st)) as [[|]|] eqn:Hnext; cbn [bind];
    [| |discriminate].
  - apply getNextQueue_QB in Hnext as (item0 & q0 & Hb0 & Hhead).
    intros (item & q & frame & Hb & Hb' & He' & _ & Hcalls & _)%begin_step_full
      [(Hbq & Heq & Hsorted & Hnonneg & Hbound & Hfirst) _].
    assert (item0 = item) by congruence. subst item0. clear Hb0 q0.
    rewrite Hb in *. apply chronological_cons in Hbq as [Hq Hitem].
    assert (Hin : item ∈ (item :: q) ++ endQueue st) by (apply elem_of_app; left; by left).
    rewrite Hb', He', Hcalls, fmap_app. split; [done|]. split; [done|]. split; [|split; [|split]].
    + apply sorted_snoc; [done|]. apply Forall_fmap, Forall_forall. intros c Hc. cbn.
      by apply (Hbound c item).
    + apply Forall_app. split; [done|]. constructor; [|constructor]. cbn.
      assert (firstTimestamp <= ts item) by (apply Hfirst; by left). lia.
    + intros c e [Hc| ->%list_elem_of_singleton]%elem_of_app He.
      * apply Hbound; [done|]. apply elem_of_app in He as [He|He]; apply elem_of_app;
          [left; by right|by right].
      * cbn. apply elem_of_app in He as [He|He].
        -- apply Hitem in He. lia.
        -- destruct (endQueue st) as [|e0 eq'] eqn:Hend; [by apply elem_of_nil in He|].
           assert (ts item <= ts e0) by (by apply Hhead).
           assert (ts e0 <= ts e) by (by apply (chronological_head (e0 :: eq'))).
           lia.
    + intros e He. apply Hfirst. by right.
  - apply getNextQueue_QE in Hnext as (item0 & q0 & He0 & Hhead).
    intros (item & q & top & rest & frame & key & He & Hs & _ & Hcalls & _ & _ & Hb' & _ & _ & Hq')
      %end_step_full [(Hbq & Heq & Hsorted & Hnonneg & Hbound & Hfirst) Hbal].
    assert (item0 = item) by congruence. subst item0. clear He0 q0.
    rewrite He in *. apply chronological_cons in Heq as [Hq Hitem].
    assert (Hin : item ∈ beginQueue st ++ item :: q) by (apply elem_of_app; right; by left).
    assert (Hswap : endQueue st' ≡ₚ q /\ ts <$> endQueue st' = ts <$> q).
    { destruct Hq' as [[-> _]|(tmp & tl & i & e & -> & Hfind & -> & _)]; [done|].
      apply find_sibling_spec in Hfind as (j & -> & Hj & Hle & _).
      split; [by apply swap_Permutation|by apply swap_same_timestamps]. }
    destruct Hswap as [Hperm Hts].
    rewrite Hb', Hcalls, fmap_app. split; [done|].
    split; [unfold chronological; by rewrite Hts|]. split; [|split; [|split]].
    + apply sorted_snoc; [done|]. apply Forall_fmap, Forall_forall. intros c Hc. cbn.
      by apply (Hbound c item).
    + apply Forall_app. split; [done|]. constructor; [|constructor]. cbn.
      unfold balanced in Hbal. rewrite Hs in Hbal.
      destruct (calls st) as [|c cs] eqn:Hcs; [cbn in Hbal; lia|].
      assert (0 <= call_time c) by (by apply Forall_cons in Hnonneg as [? _]).
      assert (call_time c <= ts item - firstTimestamp) by (apply Hbound; [by left|done]).
      lia.
    + intros c e [Hc| ->%list_elem_of_singleton]%elem_of_app He'.
      * apply Hbound; [done|]. apply elem_of_app in He' as [He'|He']; apply elem_of_app;
          [by left|]. right. right. by rewrite <- Hperm.
      * cbn. apply elem_of_app in He' as [He'|He'].
        -- destruct (beginQueue st) as [|b0 bq'] eqn:Hbegin; [by apply elem_of_nil in He'|].
           assert (ts item < ts b0) by (by apply Hhead).
           assert (ts b0 <= ts e) by (by apply (chronological_head (b0 :: bq'))).
           lia.
        -- rewrite Hperm in He'. apply Hitem in He'. lia.
    + done.
Qed.

(** X13: in a profile that is built, the calls issued by the merge loop are
    in ascending order of their time argument, and none has a negative time:
    the first timestamp of the begin queue is time 0 of the profile.  The
    forced closes that follow take their time from the frames. *)
Theorem merge_loop_calls_in_time_order
  (totalWeight : list Call -> Frame.t -> Z) (processId threadId : string)
  (events : list Event) (profile : EventedProfile.t) :
  buildProfile totalWeight processId threadId events = Ok profile ->
  exists first q merged added,
    beginQueue (normalize processId threadId events) = first :: q
    /\ merge_loop (ts first)
         (length (first :: q) + length (endQueue (normalize processId threadId events)))
         (normalize processId threadId events) = Ok merged
    /\ EventedProfile.calls profile = calls merged ++ added
    /\ length added = length (stack merged)
    /\ StronglySorted Z.le (call_time <$> calls merged)
    /\ Forall (fun c => 0 <= call_time c) (calls merged).
Proof.
  intros (first & q & merged & final & added & Hq & Hloop & _ & -> & _ & Hcalls & Hlen & _)
    %buildProfile_run.
  exists first, q, merged, added. split; [done|]. split; [done|]. split; [done|].
  split; [done|].
  assert (Hinv : timed (ts first) merged /\ balanced merged).
  { eapply (merge_loop_invariant (ts first) (fun s => timed (ts first) s /\ balanced s));
      [|exact Hloop|].
    - intros s s' Hstep Hs. split; [by eapply step_timed|].
      destruct Hs as [_ Hbal]. by eapply step_balanced.
    - split; [|apply normalize_invariants].
      destruct (normalize_fresh processId threadId events) as (_ & _ & Hl).
      destruct (normalize_chronological processId threadId events) as [Hb He].
      unfold timed. rewrite Hl. split; [done|]. split; [done|].
      split; [constructor|]. split; [constructor|]. split.
      + intros c e Hc. by apply elem_of_nil in Hc.
      + intros e He'. apply (chronological_head _ first e Hb); [by rewrite Hq|done]. }
  destruct Hinv as [(_ & _ & Hsorted & Hnonneg & _) _]. done.
Qed.

Lemma merge_loop_calls_in_time_order_witness :
  let events := [sample (Some 1) (Some 1) 3 B "f" "{}"; sample (Some 1) (Some 1) 5 E "f" "{}"] in
  exists first q merged added,
    beginQueue (normalize "1" "1" events) = first :: q
    /\ merge_loop (ts first) (length (first :: q) + length (endQueue (normalize "1" "1" events)))
         (normalize "1" "1" events) = Ok merged
    /\ [enterFrame {| Frame.key := "{}"; Frame.name := "f {}" |} 0;
        leaveFrame {| Frame.key := "{}"; Frame.name := "f {}" |} 2] = calls merged ++ added
    /\ length added = length (stack merged)
    /\ StronglySorted Z.le (call_time <$> calls merged)
    /\ Forall (fun c => 0 <= call_time c) (calls merged).
Proof.
  exact (merge_loop_calls_in_time_order call_count_weight "1" "1"
           [sample (Some 1) (Some 1) 3 B "f" "{}"; sample (Some 1) (Some 1) 5 E "f" "{}"]
           {| EventedProfile.name := "pid (1): tid (1)";
              EventedProfile.calls :=
                [enterFrame {| Frame.key := "{}"; Frame.name := "f {}" |} 0;
                 leaveFrame {| Frame.key := "{}"; Frame.name := "f {}" |} 2] |}
           eq_refl).
Defined.

(** ** A bucket with one Complete event *)

Lemma collect_single_complete (processId threadId : string) (e : Event) (d : Z) :
  ph e = X ->
  dur e = Some d \/ (dur e = None /\ tdur e = Some d) ->
  normalize processId threadId [e]
  = {| processName := "pid (" +:+ processId +:+ ")";
       threadName := "tid (" +:+ threadId +:+ ")";
       beginQueue := [with_ph e B];
       endQueue := [with_ph_ts e E (ts e + d)];
       stack := []; frameCache := ∅; calls := [] |}.
Proof.
  intros Hph Hd. unfold normalize, collect. cbn [List.filter].
  replace (isTimelineEvent e) with true by (unfold isTimelineEvent; by rewrite Hph).
  cbn [fold_left]. unfold collect_event, push_event. rewrite Hph.
  destruct Hd as [Hdur|[Hdur Htdur]]; rewrite Hdur, ?Htdur; reflexivity.
Qed.

(** X14: a bucket that holds a single Complete event with duration [d] (its
    [dur], or its [tdur] when [dur] is absent), whose end entry is at
    [ts + d]: when [ts + d] is not earlier than [ts] the profile has two
    calls, [enterFrame] at time 0 and [leaveFrame] at time [(ts + d) - ts],
    both for the frame of the event; when [ts + d] is earlier than [ts] the
    end entry comes first and the import fails with the runtime's
    TypeError. *)
Theorem single_complete_event
  (totalWeight : list Call -> Frame.t -> Z) (processId threadId : string)
  (e : Event) (d : Z) :
  ph e = X ->
  dur e = Some d \/ (dur e = None /\ tdur e = Some d) ->
  let frame := Frame.new (createFrameInfoFromEvent e) in
  (ts e <= ts e + d ->
   buildProfile totalWeight processId threadId [e]
   = Ok {| EventedProfile.name :=
             ("pid (" +:+ processId +:+ ")") +:+ ": " +:+ ("tid (" +:+ threadId +:+ ")");
           EventedProfile.calls :=
             [enterFrame frame 0; leaveFrame frame (ts e + d - ts e)] |})
  /\ (ts e + d < ts e ->
      buildProfile totalWeight processId threadId [e] = Throw TypeError).
Proof.
  intros Hph Hd frame. unfold buildProfile, run_timeline.
  rewrite (collect_single_complete processId threadId e d Hph Hd).
  set (st0 := {| processName := "pid (" +:+ processId +:+ ")";
                 threadName := "tid (" +:+ threadId +:+ ")";
                 beginQueue := [with_ph e B];
                 endQueue := [with_ph_ts e E (ts e + d)];
                 stack := []; frameCache := ∅; calls := [] |}).
  cbn [beginQueue st0 length Nat.add endQueue merge_loop ts with_ph].
  rewrite (drained_begin st0 _ _ eq_refl).
  assert (Hnext0 : getNextQueue (beginQueue st0) (endQueue st0)
                   = if ts e <? ts e + d then Ok QB
                     else if ts e + d <? ts e then Ok QE else Ok QB) by reflexivity.
  split; intros Hsign.
  - set (st1 := {| processName := "pid (" +:+ processId +:+ ")";
                   threadName := "tid (" +:+ threadId +:+ ")";
                   beginQueue := [];
                   endQueue := [with_ph_ts e E (ts e + d)];
                   stack := [with_ph e B];
                   frameCache := <[FrameInfo.key (createFrameInfoFromEvent e) := frame]> ∅;
                   calls := [enterFrame frame (ts e - ts e)] |}).
    assert (Hstep0 : step (ts e) st0 = Ok st1).
    { unfold step. rewrite Hnext0.
      destruct (Z.ltb_spec (ts e) (ts e + d)) as [|_];
        [|destruct (Z.ltb_spec (ts e + d) (ts e)); [lia|]];
        cbn [bind]; unfold begin_step, st0, st1; locals;
        change (FrameInfo.key (createFrameInfoFromEvent (with_ph e B)))
          with (FrameInfo.key (createFrameInfoFromEvent e));
        rewrite lookup_empty; locals; rewrite lookup_insert_eq; reflexivity. }
    set (st2 := {| processName := "pid (" +:+ processId +:+ ")";
                   threadName := "tid (" +:+ threadId +:+ ")";
                   beginQueue := []; endQueue := []; stack := [];
                   frameCache := <[FrameInfo.key (createFrameInfoFromEvent e) := frame]> ∅;
                   calls := [enterFrame frame (ts e - ts e);
                             leaveFrame frame (ts e + d - ts e)] |}).
    assert (Hstep1 : step (ts e) st1 = Ok st2).
    { unfold step. change (getNextQueue (beginQueue st1) (endQueue st1)) with (Ok QE).
      cbn [bind]. unfold end_step, st1, st2. locals. cbn [head].
      change (FrameInfo.key (createFrameInfoFromEvent (with_ph_ts e E (ts e + d))))
        with (FrameInfo.key (createFrameInfoFromEvent e)).
      rewrite lookup_insert_eq. reflexivity. }
    rewrite Hstep0. cbn [bind]. rewrite (drained_end st1 _ _ eq_refl).
    rewrite Hstep1. cbn [bind]. rewrite (drained_nil st2 eq_refl eq_refl).
    unfold st2, build. cbn [stack close_leftover bind processName threadName calls].
    replace (ts e - ts e) with 0 by lia. reflexivity.
  - assert (Hstep0 : step (ts e) st0 = Throw TypeError).
    { unfold step. rewrite Hnext0.
      destruct (Z.ltb_spec (ts e) (ts e + d)); [lia|].
      destruct (Z.ltb_spec (ts e + d) (ts e)); [|lia]. reflexivity. }
    rewrite Hstep0. reflexivity.
Qed.

(** The event [{ts: 0, dur: 10, name: "f", args: {}}]: one frame, entered
    at 0 and left at 10. *)
Lemma single_complete_event_witness :
  buildProfile call_count_weight "1" "1" [sample_complete 0 "f" "{}" (Some 10) None]
  = Ok {| EventedProfile.name := ("pid (" +:+ "1" +:+ ")") +:+ ": " +:+ ("tid (" +:+ "1" +:+ ")");
          EventedProfile.calls :=
            [enterFrame {| Frame.key := "{}"; Frame.name := "f {}" |} 0;
             leaveFrame {| Frame.key := "{}"; Frame.name := "f {}" |} (0 + 10 - 0)] |}.
Proof.
  apply (proj1 (single_complete_event call_count_weight "1" "1"
                  (sample_complete 0 "f" "{}" (Some 10) None) 10 eq_refl (or_introl eq_refl))).
  discriminate.
Defined.

(** ** A bucket with one Begin and one End event *)

Lemma normalize_begin_end (processId threadId : string) (b x : Event) :
  ph b = B -> ph x = E ->
  normalize processId threadId [b; x]
  = {| processName := "pid (" +:+ processId +:+ ")";
       threadName := "tid (" +:+ threadId +:+ ")";
       beginQueue := [b]; endQueue := [x];
       stack := []; frameCache := ∅; calls := [] |}.
Proof.
  intros Hb Hx. unfold normalize, collect. cbn [List.filter].
  replace (isTimelineEvent b) with true by (unfold isTimelineEvent; by rewrite Hb).
  replace (isTimelineEvent x) with true by (unfold isTimelineEvent; by rewrite Hx).
  cbn [fold_left]. unfold collect_event, push_event. rewrite Hb. locals. rewrite Hx.
  reflexivity.
Qed.

(** X15: a bucket that holds a Begin event followed, not earlier in time, by
    an End event: when the two have the same key (the same serialized
    [args]) the profile receives [enterFrame] at time 0 and [leaveFrame] at
    the distance between the two timestamps, for the frame of the Begin
    event; when the keys differ the import throws "Cannot leave frame that
    was never entered" for the key of the End event. *)
Theorem begin_end_pair
  (totalWeight : list Call -> Frame.t -> Z) (processId threadId : string) (b x : Event) :
  ph b = B -> ph x = E -> ts b <= ts x ->
  let frame := Frame.new (createFrameInfoFromEvent b) in
  (event_key x = event_key b ->
   buildProfile totalWeight processId threadId [b; x]
   = Ok {| EventedProfile.name :=
             ("pid (" +:+ processId +:+ ")") +:+ ": " +:+ ("tid (" +:+ threadId +:+ ")");
           EventedProfile.calls := [enterFrame frame 0; leaveFrame frame (ts x - ts b)] |})
  /\ (event_key x <> event_key b ->
      buildProfile totalWeight processId threadId [b; x] = Throw (NeverEntered (event_key x))).
Proof.
  intros Hb Hx Hle frame. unfold buildProfile, run_timeline.
  rewrite (normalize_begin_end processId threadId b x Hb Hx).
  set (st0 := {| processName := "pid (" +:+ processId +:+ ")";
                 threadName := "tid (" +:+ threadId +:+ ")";
                 beginQueue := [b]; endQueue := [x];
                 stack := []; frameCache := ∅; calls := [] |}).
  cbn [beginQueue st0 length Nat.add endQueue merge_loop].
  rewrite (drained_begin st0 _ _ eq_refl).
  set (st1 := {| processName := "pid (" +:+ processId +:+ ")";
                 threadName := "tid (" +:+ threadId +:+ ")";
                 beginQueue := []; endQueue := [x]; stack := [b];
                 frameCache := <[event_key b := frame]> ∅;
                 calls := [enterFrame frame (ts b - ts b)] |}).
  assert (Hstep0 : step (ts b) st0 = Ok st1).
  { unfold step. change (getNextQueue (beginQueue st0) (endQueue st0))
      with (if ts b <? ts x then Ok QB else if ts x <? ts b then @Ok Queue QE else Ok QB).
    destruct (Z.ltb_spec (ts b) (ts x)) as [|_];
      [|destruct (Z.ltb_spec (ts x) (ts b)); [lia|]];
      cbn [bind]; unfold begin_step, st0, st1; locals; fold (event_key b);
      rewrite lookup_empty; locals; rewrite lookup_insert_eq; reflexivity. }
  rewrite Hstep0. cbn [bind]. rewrite (drained_end st1 _ _ eq_refl).
  split; intros Hkey.
  - set (st2 := {| processName := "pid (" +:+ processId +:+ ")";
                   threadName := "tid (" +:+ threadId +:+ ")";
                   beginQueue := []; endQueue := []; stack := [];
                   frameCache := <[event_key b := frame]> ∅;
                   calls := [enterFrame frame (ts b - ts b);
                             leaveFrame frame (ts x - ts b)] |}).
    assert (Hstep1 : step (ts b) st1 = Ok st2).
    { unfold step. change (getNextQueue (beginQueue st1) (endQueue st1)) with (Ok QE).
      cbn [bind]. unfold end_step, st1, st2. locals. cbn [head]. fold (event_key x).
      rewrite Hkey, lookup_insert_eq. reflexivity. }
    rewrite Hstep1. cbn [bind]. rewrite (drained_nil st2 eq_refl eq_refl).
    unfold st2, build. cbn [stack close_leftover bind processName threadName calls].
    replace (ts b - ts b) with 0 by lia. reflexivity.
  - assert (Hstep1 : step (ts b) st1 = Throw (NeverEntered (event_key x))).
    { unfold step. change (getNextQueue (beginQueue st1) (endQueue st1)) with (Ok QE).
      cbn [bind]. unfold end_step, st1. locals. cbn [head]. fold (event_key x).
      rewrite lookup_insert_ne, lookup_empty by done. reflexivity. }
    rewrite Hstep1. reflexivity.
Qed.

Lemma begin_end_pair_witness :
  let b := sample (Some 1) (Some 1) 2 B "f" "{1}" in
  let x := sample (Some 1) (Some 1) 6 E "f" "{2}" in
  let frame := Frame.new (createFrameInfoFromEvent b) in
  (event_key x = event_key b ->
   buildProfile call_count_weight "1" "1" [b; x]
   = Ok {| EventedProfile.name := ("pid (" +:+ "1" +:+ ")") +:+ ": " +:+ ("tid (" +:+ "1" +:+ ")");
           EventedProfile.calls := [enterFrame frame 0; leaveFrame frame (ts x - ts b)] |})
  /\ (event_key x <> event_key b ->
      buildProfile call_count_weight "1" "1" [b; x] = Throw (NeverEntered (event_key x))).
Proof.
  apply (begin_end_pair call_count_weight "1" "1"
           (sample (Some 1) (Some 1) 2 B "f" "{1}") (sample (Some 1) (Some 1) 6 E "f" "{2}")
           eq_refl eq_refl).
  cbn. lia.
Defined.
